(** * A shallow embedding of the shortcode parser ([ShortcodeParser]) *)

(** The module under study is the first file of [src/unnamed/part_002]
    (lines 1-401): the delimiter grammar, the attribute parser, the tag
    extractor, the tag resolver ([_fixEndTags], [_filterOverlappingTags]),
    the handler dispatcher ([_runHandlers], [_applyHandler]) and the
    registry operations ([add], [has], [get], [delete], [parse]).

    Conventions of the embedding.
    - JavaScript strings are [string] (8-bit characters); the regular
      expressions are scanned over [list ascii].  Every regular expression of
      the source is embedded by hand as a search procedure that follows the
      backtracking order of the JavaScript engine for that expression.
    - Delimiter characters are backslash-escaped by
      [_addSlashToEachCharacter]; for punctuation (such as the default
      [[ and ]]) the escape is the character itself, which is what the
      embedding matches.  Letters and digits become class escapes or
      back-references in JavaScript; those delimiters are not covered.
    - Synchronous exceptions are the [throws] type; a settled deferred
      result (a bluebird promise) is [pstate].  Handlers, pattern selectors
      and predicate selectors are opaque: they are the section variables
      [handler_call], [rx_test] and [pred_call]. *)

From Stdlib Require Import Ascii String List Arith Lia ZArith Sorting.Sorted.
From stdpp Require Import base gmap strings list.
Import ListNotations.

Local Open Scope nat_scope.

Abbreviation chars := (list ascii).

(* ------------------------------------------------------------------ *)
(** ** Character classes of the JavaScript regular expressions *)

(** [\s] restricted to 8-bit characters: tab, line feed, vertical tab,
    form feed, carriage return, space and no-break space. *)
Definition is_js_space (c : ascii) : bool :=
  let n := nat_of_ascii c in
  (9 <=? n) && (n <=? 13) || (n =? 32) || (n =? 160).

(** The characters that [.] does not match (the 8-bit ones). *)
Definition is_line_terminator (c : ascii) : bool :=
  let n := nat_of_ascii c in (n =? 10) || (n =? 13).

Definition is_quote (c : ascii) : bool :=
  let n := nat_of_ascii c in (n =? 39) || (n =? 34).

Definition ascii_eqb (a b : ascii) : bool := Ascii.eqb a b.

Fixpoint starts_with (p s : chars) : bool :=
  match p, s with
  | [], _ => true
  | a :: p', b :: s' => ascii_eqb a b && starts_with p' s'
  | _ :: _, [] => false
  end.

(** Length of the longest prefix whose characters satisfy [f]. *)
Fixpoint run_len (f : ascii -> bool) (s : chars) : nat :=
  match s with
  | c :: t => if f c then S (run_len f t) else 0
  | [] => 0
  end.

Fixpoint skip_ws (s : chars) : chars :=
  match s with
  | c :: t => if is_js_space c then skip_ws t else s
  | [] => []
  end.

(** [exec] of a regular expression whose matcher at one position is
    [here]: the positions are tried from left to right. *)
Fixpoint search_from {A} (here : chars -> option A) (s : chars) (p : nat)
    : option (nat * A) :=
  match here s with
  | Some a => Some (p, a)
  | None =>
      match s with
      | [] => None
      | _ :: t => search_from here t (S p)
      end
  end.

(** A global regular expression: [exec] starts at [lastIndex] and fails
    when [lastIndex] is past the end of the text. *)
Definition exec_global {A} (here : chars -> option A) (s : chars) (li : nat)
    : option (nat * A) :=
  if li <=? length s then search_from here (drop li s) li else None.

(* ------------------------------------------------------------------ *)
(** ** Delimiter grammar ([_createRegExpsObj]) *)

Record finder := mkFinder { f_start : chars; f_end : chars }.

(** [.*?] followed by [en]: the number of characters taken by [.*?]. *)
Fixpoint lazy_until (en s : chars) : option nat :=
  if starts_with en s then Some 0
  else match s with
       | [] => None
       | c :: t => if is_line_terminator c then None else S <$> lazy_until en t
       end.

(** [tagMatch = {start}.*?{end}] (flag [g]): length of the match here. *)
Definition tag_match_here (fd : finder) (s : chars) : option nat :=
  if starts_with (f_start fd) s then
    (fun k => length (f_start fd) + k + length (f_end fd))
      <$> lazy_until (f_end fd) (drop (length (f_start fd)) s)
  else None.

(** [isEndTag = ^{start}\/]. *)
Definition is_end_tag (fd : finder) (s : chars) : bool :=
  starts_with (f_start fd ++ ["/"%char]) s.

(** The capture [(.*?)] of [getTagName = {start}(?:\/|)(.*?)(?:\s|{end})]. *)
Fixpoint lazy_name (en r : chars) : option chars :=
  if (match r with c :: _ => is_js_space c | [] => false end) || starts_with en r
  then Some []
  else match r with
       | [] => None
       | c :: t => if is_line_terminator c then None else cons c <$> lazy_name en t
       end.

Definition tag_name_here (fd : finder) (s : chars) : option chars :=
  if starts_with (f_start fd) s then
    let r := drop (length (f_start fd)) s in
    match (match r with
           | c :: r' => if ascii_eqb c "/"%char then lazy_name (f_end fd) r' else None
           | [] => None
           end) with
    | Some x => Some x
    | None => lazy_name (f_end fd) r
    end
  else None.

(** The capture of [getStartTagContent]: [{start}], a greedy group of
    [.*], then [{end}]. *)
Fixpoint greedy_down (en r : chars) (k : nat) : option chars :=
  if starts_with en (drop k r) then Some (take k r)
  else match k with
       | 0 => None
       | S k' => greedy_down en r k'
       end.

Definition start_content_here (fd : finder) (s : chars) : option chars :=
  if starts_with (f_start fd) s then
    let r := drop (length (f_start fd)) s in
    greedy_down (f_end fd) r (run_len (fun c => negb (is_line_terminator c)) r)
  else None.

(** The capture of [getAttributes = {start}.*?\s(.*?){end}]. *)
Fixpoint lazy_cap (en t : chars) : option chars :=
  if starts_with en t then Some []
  else match t with
       | [] => None
       | c :: t' => if is_line_terminator c then None else cons c <$> lazy_cap en t'
       end.

Fixpoint attr_text_lazy (en r : chars) : option chars :=
  match (match r with
         | c :: t => if is_js_space c then lazy_cap en t else None
         | [] => None
         end) with
  | Some x => Some x
  | None =>
      match r with
      | [] => None
      | c :: t => if is_line_terminator c then None else attr_text_lazy en t
      end
  end.

Definition attr_text_here (fd : finder) (s : chars) : option chars :=
  if starts_with (f_start fd) s
  then attr_text_lazy (f_end fd) (drop (length (f_start fd)) s)
  else None.

(** A non-global [exec]: the first position where the expression matches. *)
Definition exec_first {A} (here : chars -> option A) (s : chars) : option A :=
  snd <$> search_from here s 0.

(* ------------------------------------------------------------------ *)
(** ** JavaScript values, exceptions and settled deferred results *)

(** Primitive values (numbers restricted to integers). *)
Inductive prim :=
| PUndefined
| PNull
| PBool (b : bool)
| PNum (z : Z)
| PStr (s : string).

(** Values that reach the registry and the handlers: primitives, regular
    expression and function objects (by identity) and other objects. *)
Inductive jsval :=
| JPrim (p : prim)
| JRegExp (id : nat)
| JFunc (id : nat)
| JObj (label : string).

#[global] Instance prim_eq_dec : EqDecision prim.
Proof. solve_decision. Defined.
#[global] Instance jsval_eq_dec : EqDecision jsval.
Proof. solve_decision. Defined.

Definition truthy (v : prim) : bool :=
  match v with
  | PUndefined | PNull => false
  | PBool b => b
  | PNum z => negb (Z.eqb z 0)
  | PStr s => negb (String.eqb s "")
  end.

(** The exceptions the module raises, by the statement that raises them. *)
Inductive jserror :=
| EAlreadyExists (name : jsval)     (* add: Error `Tag '...' already exists` *)
| ENotFunctionHandler (name : jsval) (* add: TypeError, non-function handler *)
| EBadReference (name : jsval)       (* add: TypeError, bad reference type *)
| ENotExist (name : jsval)           (* get/delete: RangeError *)
| ETypeError (what : string)         (* TypeError raised by the engine *)
| ESyntaxError (pattern : string)    (* new RegExp on an invalid pattern *)
| EThrown (v : prim).                (* a value thrown or rejected by a handler *)

(** A synchronous computation either returns or throws. *)
Inductive throws (A : Type) :=
| Ok (a : A)
| Throw (e : jserror).
Arguments Ok {A} a.
Arguments Throw {A} e.

#[global] Instance throws_ret : MRet throws := fun A a => Ok a.
#[global] Instance throws_bind : MBind throws :=
  fun A B k m => match m with Ok a => k a | Throw e => Throw e end.

(** A deferred result as observed once settled; [Pending] is a result that
    has not settled (in [parse], also one beyond the modelled passes). *)
Inductive pstate (A : Type) :=
| Fulfilled (a : A)
| Rejected (e : jserror)
| Pending.
Arguments Fulfilled {A} a.
Arguments Rejected {A} e.
Arguments Pending {A}.

(* ------------------------------------------------------------------ *)
(** ** Attribute parser ([_getAttribute] with [xGetAttributes]) *)

(** A value stored in the attributes object: a string, [undefined], or the
    per-position object [{key: value}] created by the keyed branch. *)
Inductive attrval :=
| AStr (s : string)
| AUndef
| AObj (o : gmap string (option string)).

Abbreviation attrs := (gmap string attrval).

(** The decimal property key of a position ([attributes[count]]). *)
Definition digit_char (d : nat) : ascii := ascii_of_nat (48 + d).

Fixpoint nat_digits (fuel n : nat) : chars :=
  match fuel with
  | 0 => []
  | S f => (if n <? 10 then [] else nat_digits f (n / 10)) ++ [digit_char (n mod 10)]
  end.

Definition index_key (n : nat) : string := string_of_list_ascii (nat_digits (S n) n).

(** The capture groups 1..8 of one [xGetAttributes] match; [None] is an
    unmatched group ([undefined]). *)
Abbreviation caps := (nat -> option chars).

Definition no_caps : caps := fun _ => None.
Definition set_cap (r : caps) (i : nat) (v : chars) : caps :=
  fun j => if j =? i then Some v else r j.

(** [.*?\2]: the text up to the first [q], without line terminators. *)
Fixpoint lazy_quote (q : ascii) (r : chars) : option chars :=
  match r with
  | [] => None
  | c :: t =>
      if ascii_eqb c q then Some []
      else if is_line_terminator c then None else cons c <$> lazy_quote q t
  end.

Definition is_space_char (c : ascii) : bool := is_js_space c.
Definition is_nonspace (c : ascii) : bool := negb (is_js_space c).

(** Alternative 1, [(\S+)\s*=\s*(Q)(.*?)\2] where [Q] is the class of
    the two quote characters, with [\S+] of length [k]. *)
Definition alt1_at (k : nat) (s : chars) : option (nat * caps) :=
  match skip_ws (drop k s) with
  | c :: r1 =>
      if ascii_eqb c "="%char then
        match skip_ws r1 with
        | q :: r3 =>
            if is_quote q then
              match lazy_quote q r3 with
              | Some v =>
                  let rest := drop (S (length v)) r3 in
                  Some (length s - length rest,
                        set_cap (set_cap (set_cap no_caps 1 (take k s)) 2 [q]) 3 v)
              | None => None
              end
            else None
        | [] => None
        end
      else None
  | [] => None
  end.

(** Alternative 2, [(\S+)\s*=\s*(\S+)], with [\S+] of length [k]. *)
Definition alt2_at (k : nat) (s : chars) : option (nat * caps) :=
  match skip_ws (drop k s) with
  | c :: r1 =>
      if ascii_eqb c "="%char then
        let r2 := skip_ws r1 in
        let n := run_len is_nonspace r2 in
        match n with
        | 0 => None
        | _ => Some (length s - length (drop n r2),
                     set_cap (set_cap no_caps 4 (take k s)) 5 (take n r2))
        end
      else None
  | [] => None
  end.

(** Greedy [\S+]: the lengths are tried from the longest down to 1. *)
Fixpoint try_down (f : nat -> chars -> option (nat * caps)) (k : nat) (s : chars)
    : option (nat * caps) :=
  match k with
  | 0 => None
  | S k' => match f k s with Some r => Some r | None => try_down f k' s end
  end.

(** Alternative 3, [(C+)(?:\s|$)] where [C] is the negated class of the
    two quote characters, the caret and [\s]. *)
Definition class3 (c : ascii) : bool :=
  negb (is_quote c) && negb (ascii_eqb c "^"%char) && negb (is_js_space c).

Definition alt3 (s : chars) : option (nat * caps) :=
  let m := run_len class3 s in
  match m with
  | 0 => None
  | _ =>
      match drop m s with
      | [] => Some (m, set_cap no_caps 6 (take m s))
      | c :: _ => if is_js_space c then Some (S m, set_cap no_caps 6 (take m s)) else None
      end
  end.

(** Alternative 4, [(Q)(.*?)\7]. *)
Definition alt4 (s : chars) : option (nat * caps) :=
  match s with
  | q :: r =>
      if is_quote q then
        match lazy_quote q r with
        | Some v => Some (S (S (length v)), set_cap (set_cap no_caps 7 [q]) 8 v)
        | None => None
        end
      else None
  | [] => None
  end.

Definition attr_here (s : chars) : option (nat * caps) :=
  let l := run_len is_nonspace s in
  match try_down alt1_at l s with
  | Some r => Some r
  | None =>
      match try_down alt2_at l s with
      | Some r => Some r
      | None => match alt3 s with Some r => Some r | None => alt4 s end
      end
  end.

(** JavaScript truthiness of a capture group. *)
Definition cap_truthy (v : option chars) : bool :=
  match v with Some (_ :: _) => true | _ => false end.

(** [a || b] on capture groups. *)
Definition js_or (a b : option chars) : option chars :=
  if cap_truthy a then a else b.

Definition opt_string (v : option chars) : option string :=
  string_of_list_ascii <$> v.

(** A property key: [ToString] of the value ([undefined] is a key too). *)
Definition prop_key (v : option chars) : string :=
  match v with Some k => string_of_list_ascii k | None => "undefined" end.

Definition attrval_of (v : option string) : attrval :=
  match v with Some s => AStr s | None => AUndef end.

(** [obj[key] = v] for a string or [undefined] [v]: on an ordinary object the
    inherited [__proto__] setter ignores such a value. *)
Definition js_set_prim (a : attrs) (key : string) (v : option string) : attrs :=
  if String.eqb key "__proto__" then a else <[key := attrval_of v]> a.

Definition obj_set (o : gmap string (option string)) (key : string) (v : option string)
    : gmap string (option string) :=
  if String.eqb key "__proto__" then o else <[key := v]> o.

(** [attributes[count][key] = value] in strict mode: it reads the slot again,
    and assigning a property on a string or on [undefined] throws. *)
Definition set_on_slot (a : attrs) (slot key : string) (v : option string) : throws attrs :=
  match a !! slot with
  | Some (AObj o) => Ok (<[slot := AObj (obj_set o key v)]> a)
  | Some (AStr _) =>
      if String.eqb key "__proto__" then Ok a
      else Throw (ETypeError "Cannot create property on string")
  | _ => Throw (ETypeError "Cannot set properties of undefined")
  end.

(** The body of the [while] loop of [_getAttribute]. *)
Definition attr_body (r : caps) (count : nat) (a : attrs) : throws attrs :=
  if negb (cap_truthy (r 6)) && (cap_truthy (r 1) || cap_truthy (r 4)) then
    let key := prop_key (js_or (r 1) (r 4)) in
    let value := opt_string (js_or (r 3) (r 5)) in
    let a1 := <[index_key count := AObj ∅]> a in
    let a2 := js_set_prim a1 key value in
    set_on_slot a2 (index_key count) key value
  else if cap_truthy (r 6) || cap_truthy (r 8) then
    Ok (js_set_prim a (index_key count) (opt_string (js_or (r 6) (r 8))))
  else Ok a.

(** [while (result = xGetAttributes.exec(text)) { ...; count++; }]; every
    match is non-empty, so [S (length text)] rounds are enough. *)
Fixpoint attr_loop (fuel : nat) (s : chars) (li count : nat) (a : attrs) : throws attrs :=
  match fuel with
  | 0 => Ok a
  | S f =>
      match exec_global attr_here s li with
      | None => Ok a
      | Some (p, (n, r)) => a' ← attr_body r count a; attr_loop f s (p + n) (S count) a'
      end
  end.

Definition attributes_of_text (t : chars) : throws attrs :=
  attr_loop (S (length t)) t 0 1 ∅.

Definition _getAttribute (fd : finder) (tagtext : chars) : throws attrs :=
  match exec_first (attr_text_here fd) tagtext with
  | None => Ok ∅
  | Some t => attributes_of_text t
  end.

(** [xGetAttributes] is one regular expression of the module, with the [g]
    flag, shared by every call of [_getAttribute]: its [lastIndex] is state
    that outlives a call.  [attr_loop_st] threads it: the loop starts at the
    [lastIndex] the previous call left, an [exec] that fails (no match, or
    [lastIndex] past the end of the text) resets it to 0, and an exception
    thrown in the body of the loop leaves it just after the last match.
    [attr_loop] is the case of a [lastIndex] of 0 (lemma
    [attr_loop_st_snd]). *)
Fixpoint attr_loop_st (fuel : nat) (s : chars) (li count : nat) (a : attrs)
    : nat * throws attrs :=
  match fuel with
  | 0 => (li, Ok a)
  | S f =>
      match exec_global attr_here s li with
      | None => (0, Ok a)
      | Some (p, (n, r)) =>
          match attr_body r count a with
          | Ok a' => attr_loop_st f s (p + n) (S count) a'
          | Throw e => (p + n, Throw e)
          end
      end
  end.

(** The attribute text parsed from the [lastIndex] [li]: the new
    [lastIndex] and the result. *)
Definition attributes_of_text_st (li : nat) (t : chars) : nat * throws attrs :=
  attr_loop_st (S (length t)) t li 1 ∅.

(** [_getAttribute] with the [lastIndex] of [xGetAttributes] before and
    after the call; [xGetAttributesText] is not global and is not touched. *)
Definition _getAttribute_st (li : nat) (fd : finder) (tagtext : chars) : nat * throws attrs :=
  match exec_first (attr_text_here fd) tagtext with
  | None => (li, Ok ∅)
  | Some t => attributes_of_text_st li t
  end.

(* ------------------------------------------------------------------ *)
(** ** Tag records ([ShortcodeParserTag]) and the tag extractor *)

Record tag := mkTag {
  tagName : string;
  endTag : bool;
  fullMatch : string;
  end_ : nat;
  start : nat;
  attributes : attrs;
  content : string;
  tagContents : string;
  selfClosing : bool
}.

Definition sol := string_of_list_ascii.

(** [regex.exec(text)[1]] on a failed match reads a property of [null]. *)
Definition capture_or_throw (v : option chars) : throws string :=
  match v with
  | Some c => Ok (sol c)
  | None => Throw (ETypeError "Cannot read properties of null")
  end.

(** A raw match: the matched text and the [lastIndex] after it. *)
Definition ShortcodeParserTag (fd : finder) (m : chars * nat) : throws tag :=
  let '(t, li) := m in
  name ← capture_or_throw (exec_first (tag_name_here fd) t);
  ats ← _getAttribute fd t;
  tc ← capture_or_throw (exec_first (start_content_here fd) t);
  Ok {| tagName := name; endTag := is_end_tag fd t; fullMatch := sol t;
        end_ := li; start := li - length t; attributes := ats; content := "";
        tagContents := tc; selfClosing := true |}.

(** The loop of [_extractTagStrings].  When both delimiters are empty the
    match is empty and the JavaScript loop does not terminate; the fuel
    [S (length txt)] is enough in every other case. *)
Fixpoint extract_loop (fuel : nat) (fd : finder) (s : chars) (li : nat) : list (chars * nat) :=
  match fuel with
  | 0 => []
  | S f =>
      match exec_global (tag_match_here fd) s li with
      | None => []
      | Some (p, n) => (take n (drop p s), p + n) :: extract_loop f fd s (p + n)
      end
  end.

Definition _extractTagStrings (txt : string) (fd : finder) : list (chars * nat) :=
  let s := list_ascii_of_string txt in extract_loop (S (length s)) fd s 0.

Definition _parse (txt : string) (fd : finder) : throws (list tag) :=
  mapM (ShortcodeParserTag fd) (_extractTagStrings txt fd).

(* ------------------------------------------------------------------ *)
(** ** Tag resolver: [_fixEndTags] and [_filterOverlappingTags] *)

(** [String.prototype.substring(a, b)]: clamped, and swapped when [a > b]. *)
Definition js_substring (s : string) (a b : nat) : string :=
  let n := String.length s in
  let a' := Nat.min a n in
  let b' := Nat.min b n in
  String.substring (Nat.min a' b') (Nat.max a' b' - Nat.min a' b') s.

(** The four assignments to [tags[nn]] for the end tag [result]. *)
Definition fold_into (txt : string) (t result : tag) : tag :=
  let c := js_substring txt (end_ t) (start result) in
  {| tagName := tagName t; endTag := endTag t;
     fullMatch := fullMatch t ++ (c ++ fullMatch result);
     end_ := end_ result; start := start t; attributes := attributes t;
     content := c; tagContents := tagContents t; selfClosing := false |}.

(** [for (let nn = n; nn >= 0; nn--) if (...) { ... }]: the tag objects
    are shared, so the array is updated in place. *)
Fixpoint fold_back (txt : string) (result : tag) (nn : nat) (tags : list tag) : list tag :=
  let tags' :=
    match tags !! nn with
    | Some t =>
        if String.eqb (tagName t) (tagName result) && negb (endTag t)
        then <[nn := fold_into txt t result]> tags else tags
    | None => tags
    end in
  match nn with
  | 0 => tags'
  | S nn' => fold_back txt result nn' tags'
  end.

(** The callback of [tags.map] at index [n]. *)
Definition fix_step (txt : string) (tags : list tag) (n : nat) : list tag :=
  match tags !! n with
  | Some result => if endTag result then fold_back txt result n tags else tags
  | None => tags
  end.

Definition _fixEndTags (txt : string) (tags : list tag) : list tag :=
  filter (fun t => negb (endTag t))
    (fold_left (fix_step txt) (seq 0 (length tags)) tags).

(** [for (let nn = n - 1; nn >= 0; nn--) if (tags[nn].end > tag.start) return false;] *)
Fixpoint no_overlap_back (tags : list tag) (tg : tag) (nn : nat) : bool :=
  let rest := match nn with 0 => true | S nn' => no_overlap_back tags tg nn' end in
  match tags !! nn with
  | Some t => if start tg <? end_ t then false else rest
  | None => rest
  end.

Fixpoint filteri_from {A} (f : nat -> A -> bool) (i : nat) (l : list A) : list A :=
  match l with
  | [] => []
  | x :: t => if f i x then x :: filteri_from f (S i) t else filteri_from f (S i) t
  end.

Definition _filterOverlappingTags (tags : list tag) : list tag :=
  filteri_from
    (fun n tg => if 0 <? n then no_overlap_back tags tg (n - 1) else true) 0 tags.

(** The resolved tags of one pass of [parse]. *)
Definition resolve (fd : finder) (txt : string) : throws (list tag) :=
  tags ← _parse txt fd; Ok (_filterOverlappingTags (_fixEndTags txt tags)).

(* ------------------------------------------------------------------ *)
(** ** [String.prototype.replace] with a string pattern *)

Definition chars_of_nat (n : nat) : chars := nat_digits (S n) n.

(** [ToString] of a primitive. *)
Definition js_to_string (v : prim) : string :=
  match v with
  | PUndefined => "undefined"
  | PNull => "null"
  | PBool true => "true"
  | PBool false => "false"
  | PNum z =>
      string_of_list_ascii
        ((if (z <? 0)%Z then ["-"%char] else []) ++ chars_of_nat (Z.abs_nat z))
  | PStr s => s
  end.

(** [GetSubstitution] without capture groups: [$$], [$&], [$`] and [$']
    are special, every other [$] is literal. *)
Fixpoint get_substitution (matched str : chars) (pos : nat) (r : chars) : chars :=
  match r with
  | c :: t =>
      if ascii_eqb c "$"%char then
        match t with
        | d :: t' =>
            if ascii_eqb d "$"%char then "$"%char :: get_substitution matched str pos t'
            else if ascii_eqb d "&"%char then matched ++ get_substitution matched str pos t'
            else if ascii_eqb d "`"%char then take pos str ++ get_substitution matched str pos t'
            else if ascii_eqb d "'"%char
            then drop (pos + length matched) str ++ get_substitution matched str pos t'
            else c :: get_substitution matched str pos t
        | [] => [c]
        end
      else c :: get_substitution matched str pos t
  | [] => []
  end.

Definition index_of (str pat : chars) : option nat :=
  fst <$> search_from (fun s => if starts_with pat s then Some tt else None) str 0.

(** [txt.replace(pattern, replacer)]: the first occurrence only. *)
Definition js_replace (txt pattern : string) (replacer : prim) : string :=
  let s := list_ascii_of_string txt in
  let p := list_ascii_of_string pattern in
  match index_of s p with
  | None => txt
  | Some pos =>
      string_of_list_ascii
        (take pos s
         ++ get_substitution p s pos (list_ascii_of_string (js_to_string replacer))
         ++ drop (pos + length p) s)
  end.

(* ------------------------------------------------------------------ *)
(** ** The registry ([new Map()]) *)

(** Keys in insertion order with the handler function each maps to. *)
Abbreviation registry := (list (jsval * nat)).

Definition map_has (reg : registry) (k : jsval) : bool :=
  existsb (fun e => bool_decide (fst e = k)) reg.

Definition map_get (reg : registry) (k : jsval) : option nat :=
  snd <$> List.find (fun e => bool_decide (fst e = k)) reg.

(** [Map.prototype.set]: an existing key keeps its position. *)
Definition map_set (reg : registry) (k : jsval) (v : nat) : registry :=
  if map_has reg k
  then map (fun e => if bool_decide (fst e = k) then (k, v) else e) reg
  else reg ++ [(k, v)].

Definition map_delete (reg : registry) (k : jsval) : registry :=
  List.filter (fun e => negb (bool_decide (fst e = k))) reg.

(* ------------------------------------------------------------------ *)
(** ** Handler invocations: a logging state and exception monad *)

(** One invocation of a handler: the handler function, the tag record it
    is bound to (its first argument) and the remaining arguments. *)
Record call := mkCall { call_fn : nat; call_tag : tag; call_params : list jsval }.

Definition M (A : Type) : Type := list call -> list call * throws A.

#[global] Instance M_ret : MRet M := fun A a log => (log, Ok a).
#[global] Instance M_bind : MBind M :=
  fun A B k m log =>
    let '(log', r) := m log in
    match r with Ok a => k a log' | Throw e => (log', Throw e) end.

Definition lift {A} (t : throws A) : M A := fun log => (log, t).
Definition record_call (c : call) : M unit := fun log => (log ++ [c], Ok ()).

(** A synchronous exception inside a [then] callback rejects the promise
    returned by [then]. *)
Definition catch_sync {A} (m : M (pstate A)) : M (pstate A) :=
  fun log =>
    let '(log', r) := m log in
    match r with Ok p => (log', Ok p) | Throw e => (log', Ok (Rejected e)) end.

(** What calling a handler does: throw synchronously, return a value, or
    return a deferred result that settles. *)
Inductive hresult :=
| HThrow (v : prim)
| HReturn (v : prim)
| HDeferred (p : pstate prim).

(** Promise.all over the per-tag results: the first rejection in list order
    stands for the rejection that happens first. *)
Fixpoint all_settled {A} (l : list (option (pstate A))) : pstate (list (option A)) :=
  match l with
  | [] => Fulfilled []
  | None :: t =>
      match all_settled t with Fulfilled r => Fulfilled (None :: r) | x => x end
  | Some (Rejected e) :: _ => Rejected e
  | Some Pending :: t =>
      match all_settled t with Rejected e => Rejected e | _ => Pending end
  | Some (Fulfilled a) :: t =>
      match all_settled t with Fulfilled r => Fulfilled (Some a :: r) | x => x end
  end.

Definition finder_val : jsval := JObj "finder".
Definition exports_val : jsval := JObj "exports".

(* ------------------------------------------------------------------ *)
(** ** Handler dispatcher ([_runHandlers], [_applyHandler]) and [parse] *)

Section Dispatcher.

(** [selector.test(tagContents)] for the registered pattern [id] (a pattern
    without the [g] flag, so that [test] does not depend on [lastIndex]). *)
Variable rx_test : nat -> string -> bool.
(** Truthiness of [selector(tagContents)] for the predicate function [id]. *)
Variable pred_call : nat -> string -> bool.
(** The behaviour of the handler function [id] on [(tag, ...params)]. *)
Variable handler_call : nat -> tag -> list jsval -> hresult.

Definition _isSelectorMatch (selector : jsval) (tg : tag) : bool :=
  match selector with
  | JRegExp id => rx_test id (tagContents tg)
  | JFunc id => pred_call id (tagContents tg)
  | _ => false
  end.

(** [Promise.resolve(handler.apply({}, params) || '').then(replacer => ...)]
    for [handler] bound to [tag]. *)
Definition _applyHandler (h : nat) (tg : tag) (params : list jsval)
    : M (pstate (prim * tag)) :=
  _ ← record_call (mkCall h tg params);
  match handler_call h tg params with
  | HThrow v => lift (Throw (EThrown v))
  | HReturn v => mret (Fulfilled (if truthy v then v else PStr "", tg))
  | HDeferred (Fulfilled v) => mret (Fulfilled (v, tg))
  | HDeferred (Rejected e) => mret (Rejected e)
  | HDeferred Pending => mret Pending
  end.

(** [tags.forEach((handler, selector) => { if (!promise && _isSelectorMatch(...))
    promise = _applyHandler(...) })], in insertion order. *)
Fixpoint scan_selectors (entries : registry) (tg : tag) (params : list jsval)
    (promise : option (pstate (prim * tag))) : M (option (pstate (prim * tag))) :=
  match entries with
  | [] => mret promise
  | (selector, h) :: rest =>
      match promise with
      | Some _ => scan_selectors rest tg params promise
      | None =>
          if _isSelectorMatch selector tg then
            p ← _applyHandler h tg params; scan_selectors rest tg params (Some p)
          else scan_selectors rest tg params None
      end
  end.

(** The callback of [_tags.map] in [_runHandlers]. *)
Definition run_tag (reg : registry) (tg : tag) (params : list jsval)
    : M (option (pstate (prim * tag))) :=
  let name := JPrim (PStr (tagName tg)) in
  if map_has reg name then
    match map_get reg name with
    | Some h => p ← _applyHandler h tg params; mret (Some p)
    | None => lift (Throw (ENotExist name))
    end
  else scan_selectors reg tg params None.

(** [.filter(result => result).mapSeries(result => { txt = txt.replace(...) })]. *)
Definition apply_replacements (txt : string) (rs : list (option (prim * tag))) : string :=
  fold_left (fun t r => js_replace t (fullMatch (snd r)) (fst r)) (omap id rs) txt.

Definition _runHandlers (reg : registry) (txt : string) (tags : list tag)
    (params : list jsval) : M (pstate string) :=
  ps ← mapM (fun tg => run_tag reg tg params) tags;
  mret (match all_settled ps with
        | Fulfilled rs => Fulfilled (apply_replacements txt rs)
        | Rejected e => Rejected e
        | Pending => Pending
        end).

(** [parse(txt, ...params)]; [fuel] bounds the number of recursive passes
    (a result past the bound is [Pending]).  The recursive call is
    [exports.parse(parsedTxt, finder, exports)]. *)
Fixpoint parse (fuel : nat) (reg : registry) (fd : finder) (txt : string)
    (params : list jsval) : M (pstate string) :=
  tags ← lift (resolve fd txt);
  p ← _runHandlers reg txt tags params;
  match p with
  | Fulfilled parsedTxt =>
      if String.eqb txt parsedTxt then mret (Fulfilled parsedTxt)
      else match fuel with
           | 0 => mret Pending
           | S f => catch_sync (parse f reg fd parsedTxt [finder_val; exports_val])
           end
  | Rejected e => mret (Rejected e)
  | Pending => mret Pending
  end.

(** The handler selected by the spec's rule (no invocation): the exact-name
    entry, else the first pattern or predicate entry that accepts the head
    text of the tag. *)
Definition is_pattern_or_predicate (selector : jsval) : bool :=
  match selector with JRegExp _ | JFunc _ => true | _ => false end.

Definition accepts (selector : jsval) (s : string) : bool :=
  match selector with
  | JRegExp id => rx_test id s
  | JFunc id => pred_call id s
  | _ => false
  end.

Definition spec_select (reg : registry) (tg : tag) : option nat :=
  match map_get reg (JPrim (PStr (tagName tg))) with
  | Some h => Some h
  | None =>
      snd <$> List.find (fun e => accepts (fst e) (tagContents tg))
                (List.filter (fun e => is_pattern_or_predicate (fst e)) reg)
  end.

End Dispatcher.

(* ------------------------------------------------------------------ *)
(** ** Construction ([ShortcodeParser], [_createRegExp]) and the registry API *)

Definition _addSlashToEachCharacter (txt : string) : string :=
  string_of_list_ascii (List.flat_map (fun c => ["\"%char; c]) (list_ascii_of_string txt)).

(** [template.replace(/\{start\}/g, rep)]: every occurrence, with the
    replacement text passed through [GetSubstitution]. *)
Fixpoint replace_all_aux (fuel : nat) (pat rep s : chars) (pos : nat) (whole : chars) : chars :=
  match fuel with
  | 0 => s
  | S f =>
      match s with
      | [] => []
      | c :: t =>
          if starts_with pat s then
            get_substitution pat whole pos rep
              ++ replace_all_aux f pat rep (drop (length pat) s) (pos + length pat) whole
          else c :: replace_all_aux f pat rep t (S pos) whole
      end
  end.

Definition replace_all (s pat rep : string) : string :=
  let w := list_ascii_of_string s in
  string_of_list_ascii
    (replace_all_aux (S (length w)) (list_ascii_of_string pat) (list_ascii_of_string rep) w 0 w).

Definition _createRegExp (template startChars endChars : string) : string :=
  replace_all (replace_all template "{start}" (_addSlashToEachCharacter startChars))
    "{end}" (_addSlashToEachCharacter endChars).

(** The pattern syntax accepted by [new RegExp] (web-compatible grammar) for
    the constructs the templates use: escapes, groups, classes,
    alternation, assertions and (lazy) quantifiers. *)
Fixpoint skip_class (s : chars) : option chars :=
  match s with
  | [] => None
  | c :: t =>
      if ascii_eqb c "\"%char then match t with _ :: t' => skip_class t' | [] => None end
      else if ascii_eqb c "]"%char then Some t
      else skip_class t
  end.

Fixpoint regexp_ok (fuel : nat) (s : chars) (depth : nat) (atom : bool) : bool :=
  match fuel with
  | 0 => false
  | S f =>
      match s with
      | [] => depth =? 0
      | c :: t =>
          if ascii_eqb c "\"%char then
            match t with _ :: t' => regexp_ok f t' depth true | [] => false end
          else if ascii_eqb c "("%char then
            match t with
            | q :: k :: t' =>
                if ascii_eqb q "?"%char && ascii_eqb k ":"%char
                then regexp_ok f t' (S depth) false
                else regexp_ok f t (S depth) false
            | _ => regexp_ok f t (S depth) false
            end
          else if ascii_eqb c ")"%char then
            match depth with 0 => false | S d => regexp_ok f t d true end
          else if ascii_eqb c "["%char then
            match skip_class t with Some t' => regexp_ok f t' depth true | None => false end
          else if ascii_eqb c "*"%char || ascii_eqb c "+"%char || ascii_eqb c "?"%char then
            atom &&
            match t with
            | q :: t' => if ascii_eqb q "?"%char then regexp_ok f t' depth false
                         else regexp_ok f t depth false
            | [] => regexp_ok f t depth false
            end
          else if ascii_eqb c "|"%char || ascii_eqb c "^"%char || ascii_eqb c "$"%char
          then regexp_ok f t depth false
          else regexp_ok f t depth true
      end
  end.

Definition new_RegExp (pattern : string) : throws string :=
  let s := list_ascii_of_string pattern in
  if regexp_ok (S (length s)) s 0 false then Ok pattern else Throw (ESyntaxError pattern).

(** [_addSlashToEachCharacter] on character lists. *)
Fixpoint esc (x : chars) : chars :=
  match x with [] => [] | c :: t => "\"%char :: c :: esc t end.

(** One step of [regexp_ok] on a non-empty pattern, over the recursive call [r]. *)
Definition regexp_step (r : chars -> nat -> bool -> bool) (c : ascii) (t : chars)
    (depth : nat) (atom : bool) : bool :=
  if ascii_eqb c "\"%char then
    match t with _ :: t' => r t' depth true | [] => false end
  else if ascii_eqb c "("%char then
    match t with
    | q :: k :: t' =>
        if ascii_eqb q "?"%char && ascii_eqb k ":"%char
        then r t' (S depth) false
        else r t (S depth) false
    | _ => r t (S depth) false
    end
  else if ascii_eqb c ")"%char then
    match depth with 0 => false | S d => r t d true end
  else if ascii_eqb c "["%char then
    match skip_class t with Some t' => r t' depth true | None => false end
  else if ascii_eqb c "*"%char || ascii_eqb c "+"%char || ascii_eqb c "?"%char then
    atom &&
    match t with
    | q :: t' => if ascii_eqb q "?"%char then r t' depth false
                 else r t depth false
    | [] => r t depth false
    end
  else if ascii_eqb c "|"%char || ascii_eqb c "^"%char || ascii_eqb c "$"%char
  then r t depth false
  else r t depth true.


(** The templates, as the JavaScript string literals evaluate. *)
Definition xGetTagAttributesText : string := "{start}.*?\s(.*?){end}".
Definition xStartTagContents : string := "{start}(.*){end}".
Definition xTagMatch : string := "{start}.*?{end}".
Definition xIsEndTag : string := "^{start}/".
Definition xGetTagName : string := "{start}(?:/|)(.*?)(?:\s|{end})".

(** Constructor options; [None] is an absent property. *)
Record options := mkOptions { opt_start : option string; opt_end : option string }.

Definition no_options : options := mkOptions None None.

Record parser := mkParser { p_finder : finder; p_tags : registry }.

(** [_createRegExpsObj]: the five [new RegExp] calls, in source order. *)
Definition _createRegExpsObj (st en : string) : throws finder :=
  _ ← new_RegExp (_createRegExp xTagMatch st en);
  _ ← new_RegExp (_createRegExp xIsEndTag st en);
  _ ← new_RegExp (_createRegExp xGetTagName st en);
  _ ← new_RegExp (_createRegExp xGetTagAttributesText st en);
  _ ← new_RegExp (_createRegExp xStartTagContents st en);
  Ok (mkFinder (list_ascii_of_string st) (list_ascii_of_string en)).

(** [ShortcodeParser(options)] with [Object.assign({}, defaultOptions, options)]. *)
Definition ShortcodeParser (o : options) : throws parser :=
  let st := default "[[" (opt_start o) in
  let en := default "]]" (opt_end o) in
  fd ← _createRegExpsObj st en;
  Ok (mkParser fd []).

Definition has (p : parser) (name : jsval) : bool := map_has (p_tags p) name.

Definition get (p : parser) (name : jsval) : throws nat :=
  if has p name then
    match map_get (p_tags p) name with Some h => Ok h | None => Throw (ENotExist name) end
  else Throw (ENotExist name).

Definition delete (p : parser) (name : jsval) : throws (parser * bool) :=
  if has p name then Ok (mkParser (p_finder p) (map_delete (p_tags p) name), true)
  else Throw (ENotExist name).

(** [throwOnAlreadySet=true]: the default applies to [undefined]. *)
Definition flag_value (v : jsval) : bool :=
  match v with
  | JPrim PUndefined => true
  | JPrim q => truthy q
  | _ => true
  end.

Definition is_reference (name : jsval) : bool :=
  match name with JPrim (PStr _) | JRegExp _ | JFunc _ => true | _ => false end.

(** [add(name, handler, throwOnAlreadySet)]: the new parser state and the
    value returned ([exports.get(name)]). *)
Definition add (p : parser) (name handler throwOnAlreadySet : jsval) : throws (parser * nat) :=
  if has p name && flag_value throwOnAlreadySet then Throw (EAlreadyExists name)
  else match handler with
       | JFunc h =>
           if is_reference name then
             let p' := mkParser (p_finder p) (map_set (p_tags p) name h) in
             r ← get p' name; Ok (p', r)
           else Throw (EBadReference name)
       | _ => Throw (ENotFunctionHandler name)
       end.

(** [add] as a transition on the parser state: on a throw, the state is
    the one before the call. *)
Definition add_state (p : parser) (name handler throwOnAlreadySet : jsval)
    : parser * throws nat :=
  match add p name handler throwOnAlreadySet with
  | Ok (p', r) => (p', Ok r)
  | Throw e => (p, Throw e)
  end.

Definition default_finder : finder := mkFinder (list_ascii_of_string "[[") (list_ascii_of_string "]]").

(* ------------------------------------------------------------------ *)
(** ** Attribute blocks written as tokens (the reading of the attribute rule) *)

(** A token of an attribute block: [key=qvalueq] with a quote [q],
    [key=value] without quotes, or a bare token. *)
Inductive token :=
| TKeyQ (k : chars) (q : ascii) (v : chars)
| TKey (k v : chars)
| TBare (w : chars).

Definition render_token (t : token) : chars :=
  match t with
  | TKeyQ k q v => k ++ "="%char :: q :: v ++ [q]
  | TKey k v => k ++ "="%char :: v
  | TBare w => w
  end.

(** An attribute block: leading whitespace, then tokens, each followed by
    its whitespace (possibly empty after the last token). *)
Fixpoint render_items (items : list (token * chars)) : chars :=
  match items with
  | [] => []
  | (t, ws) :: rest => render_token t ++ ws ++ render_items rest
  end.

Definition render_block (lead : chars) (items : list (token * chars)) : chars :=
  lead ++ render_items items.

Definition is_digit (c : ascii) : bool :=
  (48 <=? nat_of_ascii c) && (nat_of_ascii c <=? 57).












(* ================================================================== *)
(** * Properties *)

(* ------------------------------------------------------------------ *)
(** ** Registry lookups *)

Lemma map_has_get (reg : registry) (k : jsval) :
  map_has reg k = match map_get reg k with Some _ => true | None => false end.
Proof.
  unfold map_has, map_get. induction reg as [|[k' v] rest IH]; simpl; [done|].
  case_bool_decide; simpl; done.
Qed.

(* ------------------------------------------------------------------ *)
(** ** Handler selection *)

Section Selection.

Variable rx_test : nat -> string -> bool.
Variable pred_call : nat -> string -> bool.
Variable handler_call : nat -> tag -> list jsval -> hresult.

Lemma scan_selectors_found (entries : registry) tg params p (log : list call) :
  scan_selectors rx_test pred_call handler_call entries tg params (Some p) log
  = (log, Ok (Some p)).
Proof. induction entries as [|[sel h] rest IH]; simpl; done. Qed.

Lemma scan_selectors_none (entries : registry) tg params (log : list call) :
  scan_selectors rx_test pred_call handler_call entries tg params None log
  = (match snd <$> List.find (fun e => accepts rx_test pred_call (fst e) (tagContents tg))
                  (List.filter (fun e => is_pattern_or_predicate (fst e)) entries) with
     | Some h => (p ← _applyHandler handler_call h tg params; mret (Some p))
     | None => mret None
     end) log.
Proof.
  revert log. induction entries as [|[sel h] rest IH]; intros log; simpl; [done|].
  destruct sel as [q|id|id|lbl]; simpl; try apply IH.
  - destruct (rx_test id (tagContents tg)); simpl; [|apply IH].
    unfold mbind, M_bind.
    destruct (_applyHandler handler_call h tg params log) as [log' [a|e]];
      [apply scan_selectors_found | done].
  - destruct (pred_call id (tagContents tg)); simpl; [|apply IH].
    unfold mbind, M_bind.
    destruct (_applyHandler handler_call h tg params log) as [log' [a|e]];
      [apply scan_selectors_found | done].
Qed.

End Selection.

(** C2: for every tag, the handler [_runHandlers] invokes is the exact-name
    entry for [tagName] whenever one exists, wherever it sits in the
    registration order; otherwise it is the first pattern or predicate entry,
    in registration order, that accepts the tag's [tagContents], and no
    handler when none does.  [spec_select] states that rule; the theorem
    says the code invokes exactly the handler it selects, and nothing else. *)
Theorem run_tag_selects_exact_then_first_selector
    (rx_test pred_call : nat -> string -> bool)
    (handler_call : nat -> tag -> list jsval -> hresult)
    (reg : registry) (tg : tag) (params : list jsval) (log : list call) :
  run_tag rx_test pred_call handler_call reg tg params log
  = (match spec_select rx_test pred_call reg tg with
     | Some h => (p ← _applyHandler handler_call h tg params; mret (Some p))
     | None => mret None
     end) log.
Proof.
  unfold run_tag, spec_select. rewrite map_has_get.
  destruct (map_get reg (JPrim (PStr (tagName tg)))) as [h|]; [done|].
  apply scan_selectors_none.
Qed.

(** C10: [add] tests for a duplicate name before it tests the handler and
    the reference: when [name] is registered and [throwOnAlreadySet] is
    [true] or omitted, [add] with a non-function handler throws the
    "already exists" error (not the [TypeError]) and the registry is left
    as it was. *)
Theorem add_duplicate_checked_first (p : parser) (name handler flag : jsval)
    (Hreg : has p name = true)
    (Hhandler : forall id, handler <> JFunc id)
    (Hflag : flag = JPrim (PBool true) \/ flag = JPrim PUndefined) :
  add_state p name handler flag = (p, Throw (EAlreadyExists name)).
Proof.
  unfold add_state, add. rewrite Hreg.
  destruct Hflag as [-> | ->]; reflexivity.
Qed.

Definition test_parser : parser :=
  mkParser default_finder [(JPrim (PStr "TEST"), 1)].

Lemma add_duplicate_checked_first_witness :
  has test_parser (JPrim (PStr "TEST")) = true /\
  add_state test_parser (JPrim (PStr "TEST")) (JPrim (PStr "HELLO")) (JPrim PUndefined)
  = (test_parser, Throw (EAlreadyExists (JPrim (PStr "TEST")))).
Proof.
  split; [reflexivity|].
  apply (add_duplicate_checked_first test_parser (JPrim (PStr "TEST"))
           (JPrim (PStr "HELLO")) (JPrim PUndefined)).
  - reflexivity.
  - intros id H; discriminate H.
  - right; reflexivity.
Defined.

(* ------------------------------------------------------------------ *)
(** ** Concrete runs *)

(** Handlers used by the concrete runs: 1 returns [HELLO WORLD], 2 returns a
    new tag [[B]], 3 returns a deferred result resolving to [undefined],
    4 throws, and every other one returns [undefined]. *)
Definition demo_handlers (h : nat) (tg : tag) (ps : list jsval) : hresult :=
  match h with
  | 1 => HReturn (PStr "HELLO WORLD")
  | 2 => HReturn (PStr "[[B]]")
  | 3 => HDeferred (Fulfilled PUndefined)
  | 4 => HThrow (PStr "boom")
  | _ => HReturn PUndefined
  end.

Definition no_selector (id : nat) (s : string) : bool := false.

Definition demo_registry : registry :=
  [(JPrim (PStr "HELLO"), 1); (JPrim (PStr "A"), 2); (JPrim (PStr "B"), 5);
   (JPrim (PStr "C"), 3); (JPrim (PStr "D"), 4)].

Definition demo_parse (reg : registry) (txt : string) (params : list jsval)
    : list call * throws (pstate string) :=
  parse no_selector no_selector demo_handlers 5 reg default_finder txt params [].

Example demo_hello :
  snd (demo_parse demo_registry "say [[HELLO]] now" []) = Ok (Fulfilled "say HELLO WORLD now").
Proof. vm_compute. reflexivity. Qed.

(** C1 (code evaluated at the failing input): in [[A]][[A]][[/A]] the end
    tag is folded into both start records, the nearest one (index 1) and
    the outer one (index 0), which becomes the span of the whole text. *)
Theorem fixEndTags_folds_every_preceding_start :
  match _parse "[[A]][[A]][[/A]]" default_finder with
  | Ok tags =>
      map (fun t => (fullMatch t, content t, start t, end_ t, selfClosing t))
        (_fixEndTags "[[A]][[A]][[/A]]" tags)
      = [("[[A]][[A]][[/A]]", "[[A]]", 0, 16, false);
         ("[[A]][[/A]]", "", 5, 16, false)]
  | Throw _ => False
  end.
Proof. vm_compute. reflexivity. Qed.

(** C3 (code evaluated at the failing input): with no handler registered,
    parsing [[X 1=a]] does not resolve to the text: building the tag
    record throws a [TypeError] synchronously (the keyed slot [1] replaces
    the positional object, and the strict-mode assignment of a property on
    the string ["a"] throws). *)
Theorem parse_unhandled_tag_throws :
  demo_parse [] "[[X 1=a]]" []
  = ([], Throw (ETypeError "Cannot create property on string")).
Proof. vm_compute. reflexivity. Qed.

(** C5 (code evaluated at the failing input): a handler that throws when it
    is invoked in the first pass makes [parse] throw synchronously; no
    deferred result is returned. *)
Theorem parse_handler_throw_is_synchronous :
  snd (demo_parse demo_registry "[[D]]" []) = Throw (EThrown (PStr "boom")).
Proof. vm_compute. reflexivity. Qed.

(** C6 (code evaluated at the failing input): a deferred result resolving to
    [undefined] is not turned into the empty string; the tag is replaced
    by the text [undefined]. *)
Theorem parse_deferred_undefined_spliced :
  snd (demo_parse demo_registry "x[[C]]y" []) = Ok (Fulfilled "xundefinedy").
Proof. vm_compute. reflexivity. Qed.

(** C7 (code evaluated at the failing input): parsing [[A]] with the extra
    parameter ["P"] invokes A's handler with ["P"], but the handler of the
    tag [[B]] it produces, run in the second pass, receives the finder and
    the parser object instead. *)
Theorem parse_recursive_pass_params :
  map (fun c => (call_fn c, call_params c))
      (fst (demo_parse demo_registry "[[A]]" [JPrim (PStr "P")]))
  = [(2, [JPrim (PStr "P")]); (5, [finder_val; exports_val])].
Proof. vm_compute. reflexivity. Qed.

(* ------------------------------------------------------------------ *)
(** ** The tag extractor yields records in text order *)

Lemma search_from_ge {A} (here : chars -> option A) (s : chars) (p q : nat) (a : A) :
  search_from here s p = Some (q, a) -> p <= q.
Proof.
  revert p. induction s as [|c t IH]; intros p H; simpl in H.
  - destruct (here []); inversion H; lia.
  - destruct (here (c :: t)); [inversion H; lia|].
    apply IH in H. lia.
Qed.

Lemma exec_global_ge {A} (here : chars -> option A) (s : chars) (li q : nat) (a : A) :
  exec_global here s li = Some (q, a) -> li <= q.
Proof.
  unfold exec_global. destruct (li <=? length s); [|discriminate].
  apply search_from_ge.
Qed.

(** Raw matches: the start of each ([lastIndex] minus its length) is at
    or after the [lastIndex] of every earlier one. *)
Definition raw_before (m1 m2 : chars * nat) : Prop :=
  snd m1 <= snd m2 - length (fst m2).

Lemma extract_loop_ordered (fuel : nat) (fd : finder) (s : chars) (li : nat) :
  Forall (fun m => li <= snd m - length (fst m)) (extract_loop fuel fd s li) /\
  StronglySorted raw_before (extract_loop fuel fd s li).
Proof.
  revert li. induction fuel as [|f IH]; intros li; simpl; [split; constructor|].
  destruct (exec_global (tag_match_here fd) s li) as [[p n]|] eqn:E; [|split; constructor].
  apply exec_global_ge in E.
  destruct (IH (p + n)) as [Hf Hs].
  assert (Hlen : length (take n (drop p s)) <= n) by (rewrite length_take; lia).
  split.
  - constructor; simpl; [lia|].
    eapply Forall_impl; [exact Hf|]. intros m Hm. simpl in *. lia.
  - constructor; [exact Hs|].
    eapply Forall_impl; [exact Hf|]. intros m Hm. unfold raw_before; simpl in *. lia.
Qed.

Lemma mapM_throws_ok {A B} (f : A -> throws B) (l : list A) (ts : list B) :
  mapM f l = Ok ts -> Forall2 (fun a b => f a = Ok b) l ts.
Proof.
  revert ts. induction l as [|x l IH]; intros ts H; simpl in H.
  - inversion H; constructor.
  - unfold mbind, throws_bind in H.
    destruct (f x) as [y|e] eqn:Ef; [|discriminate].
    destruct (mapM f l) as [k|e] eqn:Ek; [|discriminate].
    inversion H; subst. constructor; [exact Ef | apply IH; reflexivity].
Qed.

Lemma ShortcodeParserTag_pos (fd : finder) (m : chars * nat) (t : tag) :
  ShortcodeParserTag fd m = Ok t ->
  start t = snd m - length (fst m) /\ end_ t = snd m.
Proof.
  destruct m as [tx li]. unfold ShortcodeParserTag. simpl.
  unfold mbind, throws_bind.
  destruct (capture_or_throw _); [|discriminate].
  destruct (_getAttribute fd tx); [|discriminate].
  destruct (capture_or_throw _); [|discriminate].
  intros H; inversion H; subst; simpl. split; reflexivity.
Qed.

(** Tag records before pairing: each ends at or after its start and ends
    at or before the start of every later one. *)
Definition disjoint_before (a b : tag) : Prop := end_ a <= start b.
Definition well_spanned (t : tag) : Prop := start t <= end_ t.

Lemma parse_ordered (fd : finder) (txt : string) (tags : list tag) :
  _parse txt fd = Ok tags ->
  Forall well_spanned tags /\ StronglySorted disjoint_before tags.
Proof.
  unfold _parse, _extractTagStrings. intros H.
  apply mapM_throws_ok in H.
  destruct (extract_loop_ordered (S (length (list_ascii_of_string txt))) fd
              (list_ascii_of_string txt) 0) as [_ Hs].
  revert Hs H.
  generalize (extract_loop (S (length (list_ascii_of_string txt))) fd
                (list_ascii_of_string txt) 0) as ms.
  intros ms Hs H. induction H as [|m t ms ts Hmt Hrest IH].
  - split; constructor.
  - apply StronglySorted_inv in Hs as [Hs Hall].
    destruct (IH Hs) as [Hw Hd].
    destruct (ShortcodeParserTag_pos fd m t Hmt) as [Hst Hen].
    split.
    + constructor; [unfold well_spanned; lia | exact Hw].
    + constructor; [exact Hd|].
      clear IH Hw Hd Hs.
      induction Hrest as [|m' t' ms' ts' Hmt' Hrest' IH']; [constructor|].
      inversion Hall; subst.
      constructor; [|apply IH'; assumption].
      destruct (ShortcodeParserTag_pos fd m' t' Hmt') as [Hst' Hen'].
      unfold disjoint_before. unfold raw_before in *. lia.
Qed.

Lemma StronglySorted_lookup {A} (R : A -> A -> Prop) (l : list A) (i j : nat) (x y : A) :
  StronglySorted R l -> i < j -> l !! i = Some x -> l !! j = Some y -> R x y.
Proof.
  revert i j. induction l as [|a l IH]; intros i j Hs Hij Hi Hj; [done|].
  apply StronglySorted_inv in Hs as [Hs Hall].
  destruct i as [|i]; destruct j as [|j]; simpl in *; try lia.
  - inversion Hi; subst. rewrite Forall_forall in Hall.
    apply Hall. eapply list_elem_of_lookup_2; eauto.
  - apply (IH i j); auto; lia.
Qed.

(** The in-place folding keeps, index by index, the start and the end-tag
    flag of every record and the whole of every end-tag record, and each
    record keeps ending at or after its start. *)
Definition fold_inv (tags0 tags : list tag) : Prop :=
  length tags = length tags0 /\
  forall i t, tags !! i = Some t ->
    exists t0, tags0 !! i = Some t0 /\ start t = start t0 /\ endTag t = endTag t0 /\
      (endTag t0 = true -> end_ t = end_ t0) /\ start t <= end_ t.

Definition text_ordered (tags0 : list tag) : Prop :=
  Forall well_spanned tags0 /\ StronglySorted disjoint_before tags0.

Lemma fold_inv_refl (tags0 : list tag) : Forall well_spanned tags0 -> fold_inv tags0 tags0.
Proof.
  intros Hw. split; [done|]. intros i t Ht. exists t.
  repeat split; auto.
  rewrite Forall_forall in Hw. apply Hw.
  eapply list_elem_of_lookup_2; eauto.
Qed.

Lemma fold_inv_insert (txt : string) (tags0 tags : list tag) (result t : tag) (n nn : nat) :
  text_ordered tags0 -> fold_inv tags0 tags ->
  tags !! n = Some result -> endTag result = true -> nn <= n ->
  tags !! nn = Some t -> endTag t = false ->
  fold_inv tags0 (<[nn := fold_into txt t result]> tags) /\
  <[nn := fold_into txt t result]> tags !! n = Some result.
Proof.
  intros [Hw Hs] [Hlen Hinv] Hn Hend Hle Hnn Htend.
  assert (Hne : nn <> n) by (intros ->; congruence).
  split.
  - split; [rewrite length_insert; exact Hlen|].
    intros i u Hu.
    destruct (decide (i = nn)) as [->|Hi].
    + rewrite list_lookup_insert_eq in Hu by (eapply lookup_lt_Some; eauto).
      inversion Hu; subst u; clear Hu.
      destruct (Hinv nn t Hnn) as (t0 & H0 & Hst & Het & _ & _).
      destruct (Hinv n result Hn) as (r0 & Hr0 & Hrst & Hret & Hrend & Hrw).
      exists t0. simpl. repeat split; auto.
      * congruence.
      * rewrite Hst.
        assert (Hlt : nn < n) by lia.
        pose proof (StronglySorted_lookup _ _ _ _ _ _ Hs Hlt H0 Hr0) as Hd.
        unfold disjoint_before in Hd.
        rewrite Forall_forall in Hw.
        assert (Hw0 : well_spanned t0)
          by (apply Hw; eapply list_elem_of_lookup_2; eauto).
        assert (Hwr : well_spanned r0)
          by (apply Hw; eapply list_elem_of_lookup_2; eauto).
        unfold well_spanned in *. rewrite Hrend by congruence. lia.
    + rewrite list_lookup_insert_ne in Hu by congruence. apply Hinv; exact Hu.
  - rewrite list_lookup_insert_ne by congruence. exact Hn.
Qed.

Lemma fold_back_one (txt : string) (tags0 : list tag) (result : tag) (n nn : nat)
    (tags : list tag) :
  text_ordered tags0 -> fold_inv tags0 tags ->
  tags !! n = Some result -> endTag result = true -> nn <= n ->
  let tags' :=
    match tags !! nn with
    | Some t =>
        if String.eqb (tagName t) (tagName result) && negb (endTag t)
        then <[nn := fold_into txt t result]> tags else tags
    | None => tags
    end in
  fold_inv tags0 tags' /\ tags' !! n = Some result.
Proof.
  intros Hord Hinv Hn Hend Hle tags'. subst tags'.
  destruct (tags !! nn) as [t|] eqn:Ht; [|auto].
  destruct (String.eqb (tagName t) (tagName result) && negb (endTag t)) eqn:Hc; [|auto].
  apply andb_true_iff in Hc as [_ Hc]. apply negb_true_iff in Hc.
  eapply fold_inv_insert; eauto.
Qed.

Lemma fold_back_inv (txt : string) (tags0 : list tag) (result : tag) (n nn : nat)
    (tags : list tag) :
  text_ordered tags0 -> fold_inv tags0 tags ->
  tags !! n = Some result -> endTag result = true -> nn <= n ->
  fold_inv tags0 (fold_back txt result nn tags) /\
  fold_back txt result nn tags !! n = Some result.
Proof.
  intros Hord. revert tags.
  induction nn as [|nn IH]; intros tags Hinv Hn Hend Hle.
  - exact (fold_back_one txt tags0 result n 0 tags Hord Hinv Hn Hend Hle).
  - destruct (fold_back_one txt tags0 result n (S nn) tags Hord Hinv Hn Hend Hle)
      as [Hinv' Hn'].
    simpl. apply IH; auto; lia.
Qed.

Lemma fold_steps_inv (txt : string) (tags0 : list tag) (ns : list nat) (tags : list tag) :
  text_ordered tags0 -> fold_inv tags0 tags ->
  fold_inv tags0 (fold_left (fix_step txt) ns tags).
Proof.
  intros Hord. revert tags. induction ns as [|n ns IH]; intros tags Hinv; simpl; [done|].
  apply IH. unfold fix_step.
  destruct (tags !! n) as [result|] eqn:Hn; [|done].
  destruct (endTag result) eqn:He; [|done].
  apply (fold_back_inv txt tags0 result n n tags Hord Hinv Hn He (le_n n)).
Qed.

Lemma fixEndTags_spec (txt : string) (tags0 : list tag) :
  text_ordered tags0 ->
  Forall (fun t => endTag t = false /\ well_spanned t) (_fixEndTags txt tags0).
Proof.
  intros Hord. unfold _fixEndTags.
  pose proof (fold_steps_inv txt tags0 (seq 0 (length tags0)) tags0 Hord
                (fold_inv_refl tags0 (proj1 Hord))) as [_ Hinv].
  apply Forall_forall. intros t Ht.
  apply list_elem_of_filter in Ht as [Hf Ht].
  apply list_elem_of_lookup in Ht as [i Hi].
  destruct (Hinv i t Hi) as (t0 & _ & _ & _ & _ & Hw).
  split; [apply negb_true_iff; apply Is_true_true; exact Hf | exact Hw].
Qed.

Lemma no_overlap_back_sound (tags : list tag) (tg : tag) (nn : nat) :
  no_overlap_back tags tg nn = true ->
  forall m y, m <= nn -> tags !! m = Some y -> end_ y <= start tg.
Proof.
  induction nn as [|nn IH]; intros H m y Hm Hy; simpl in H.
  - assert (m = 0) as -> by lia. rewrite Hy in H.
    destruct (start tg <? end_ y) eqn:E; [discriminate|]. apply Nat.ltb_ge in E. exact E.
  - destruct (tags !! S nn) as [t|] eqn:Ht.
    + destruct (start tg <? end_ t) eqn:E; [discriminate|].
      destruct (decide (m = S nn)) as [->|Hne].
      * rewrite Ht in Hy. inversion Hy; subst. apply Nat.ltb_ge in E. exact E.
      * apply (IH H m y); auto; lia.
    + destruct (decide (m = S nn)) as [->|Hne]; [congruence|].
      apply (IH H m y); auto; lia.
Qed.

Lemma filteri_from_elem {A} (f : nat -> A -> bool) (i : nat) (l : list A) (y : A) :
  y ∈ filteri_from f i l -> exists k, l !! k = Some y /\ f (i + k) y = true.
Proof.
  revert i. induction l as [|x l IH]; intros i Hy; simpl in Hy; [inversion Hy|].
  destruct (f i x) eqn:Hf.
  - apply elem_of_cons in Hy as [->|Hy].
    + exists 0. rewrite Nat.add_0_r. auto.
    + destruct (IH (S i) Hy) as (k & Hk & Hfk). exists (S k).
      rewrite Nat.add_succ_r. auto.
  - destruct (IH (S i) Hy) as (k & Hk & Hfk). exists (S k).
    rewrite Nat.add_succ_r. auto.
Qed.

Lemma filteri_from_Forall {A} (P : A -> Prop) (f : nat -> A -> bool) (i : nat) (l : list A) :
  Forall P l -> Forall P (filteri_from f i l).
Proof.
  intros HP. apply Forall_forall. intros y Hy.
  destruct (filteri_from_elem f i l y Hy) as (k & Hk & _).
  rewrite Forall_forall in HP. apply HP. eapply list_elem_of_lookup_2; eauto.
Qed.

Lemma filteri_from_disjoint (f : nat -> tag -> bool) (i : nat) (l : list tag) :
  (forall k x, l !! k = Some x -> f (i + k) x = true ->
     forall m y, m < k -> l !! m = Some y -> end_ y <= start x) ->
  StronglySorted disjoint_before (filteri_from f i l).
Proof.
  revert i. induction l as [|x l IH]; intros i H; simpl; [constructor|].
  assert (Hrest : StronglySorted disjoint_before (filteri_from f (S i) l)).
  { apply IH. intros k z Hk Hf m y Hm Hy.
    apply (H (S k) z Hk) with (m := S m); [rewrite Nat.add_succ_r; exact Hf | lia | exact Hy]. }
  destruct (f i x) eqn:Hfx; [|exact Hrest].
  constructor; [exact Hrest|].
  apply Forall_forall. intros z Hz.
  destruct (filteri_from_elem f (S i) l z Hz) as (k & Hk & Hfk).
  unfold disjoint_before.
  apply (H (S k) z Hk) with (m := 0); [rewrite Nat.add_succ_r; exact Hfk | lia | reflexivity].
Qed.

Lemma filterOverlappingTags_disjoint (tags : list tag) :
  StronglySorted disjoint_before (_filterOverlappingTags tags).
Proof.
  unfold _filterOverlappingTags. apply filteri_from_disjoint.
  intros k x Hk Hf m y Hm Hy. simpl in Hf.
  destruct (0 <? k) eqn:Hk0; [|apply Nat.ltb_ge in Hk0; lia].
  apply (no_overlap_back_sound tags x (k - 1) Hf m y); [lia | exact Hy].
Qed.

Lemma disjoint_sorted_by_start (l : list tag) :
  Forall well_spanned l -> StronglySorted disjoint_before l ->
  Sorted (fun a b => start a <= start b) l.
Proof.
  intros Hw Hs. apply StronglySorted_Sorted.
  induction Hs as [|a l Hs IH Hall]; constructor.
  - apply IH. inversion Hw; auto.
  - inversion Hw as [|? ? Ha _]; subst. unfold well_spanned in Ha.
    rewrite Forall_forall in Hall |- *. intros b Hb.
    specialize (Hall b Hb). unfold disjoint_before in Hall. lia.
Qed.

(** C8: whenever the tags of a text are resolved (end tags folded into
    their start records, then overlapping records filtered out), every
    resolved record is a start record ([endTag] is false), the records come
    in order of their [start], and each record ends at or before the start
    of every later one, so that no two of them overlap. *)
Theorem resolve_no_end_tags_no_overlap (fd : finder) (txt : string) (rs : list tag) :
  resolve fd txt = Ok rs ->
  Forall (fun t => endTag t = false) rs /\
  Sorted (fun a b => start a <= start b) rs /\
  StronglySorted disjoint_before rs.
Proof.
  unfold resolve. intros H.
  destruct (_parse txt fd) as [tags|e] eqn:Hp; simpl in H; [|discriminate].
  inversion H; subst rs; clear H.
  pose proof (fixEndTags_spec txt tags (parse_ordered fd txt tags Hp)) as Hfix.
  assert (Hf : Forall (fun t => endTag t = false /\ well_spanned t)
                 (_filterOverlappingTags (_fixEndTags txt tags)))
    by (apply filteri_from_Forall; exact Hfix).
  pose proof (filterOverlappingTags_disjoint (_fixEndTags txt tags)) as Hd.
  split; [|split].
  - eapply Forall_impl; [exact Hf|]. simpl. tauto.
  - apply disjoint_sorted_by_start; [|exact Hd].
    eapply Forall_impl; [exact Hf|]. simpl. tauto.
  - exact Hd.
Qed.

Lemma resolve_no_end_tags_no_overlap_witness :
  let rs := match resolve default_finder "[[A]]x[[B]]y[[/A]][[C]]" with
            | Ok rs => rs | Throw _ => [] end in
  resolve default_finder "[[A]]x[[B]]y[[/A]][[C]]" = Ok rs /\
  Forall (fun t => endTag t = false) rs /\
  Sorted (fun a b => start a <= start b) rs /\
  StronglySorted disjoint_before rs.
Proof.
  intros rs. split.
  - vm_compute. reflexivity.
  - apply (resolve_no_end_tags_no_overlap default_finder "[[A]]x[[B]]y[[/A]][[C]]" rs).
    vm_compute. reflexivity.
Defined.

(* ------------------------------------------------------------------ *)
(** ** Construction of the regular expressions *)

Lemma esc_cons c x : esc (c :: x) = "\"%char :: c :: esc x.
Proof. reflexivity. Qed.

Lemma addSlash_esc st :
  _addSlashToEachCharacter st = string_of_list_ascii (esc (list_ascii_of_string st)).
Proof.
  unfold _addSlashToEachCharacter. f_equal;
  induction (list_ascii_of_string st) as [|c x IH]; simpl; congruence.
Qed.

Lemma length_esc x : length (esc x) = length x + length x.
Proof. induction x as [|c x IH]; simpl; [done|]. lia. Qed.

Lemma get_substitution_esc m str pos x : get_substitution m str pos (esc x) = esc x.
Proof.
  induction x as [|c x IH]; [done|].
  simpl.
  destruct (ascii_eqb c "$"%char) eqn:E.
  - destruct x as [|c' x]; [done|]. simpl in *. rewrite IH. done.
  - rewrite IH. done.
Qed.

Lemma replace_all_aux_cons f pat rep c t pos whole :
  replace_all_aux (S f) pat rep (c :: t) pos whole =
  if starts_with pat (c :: t) then
    get_substitution pat whole pos rep
      ++ replace_all_aux f pat rep (drop (length pat) (c :: t)) (pos + length pat) whole
  else c :: replace_all_aux f pat rep t (S pos) whole.
Proof. reflexivity. Qed.

Lemma starts_with_end_esc (x rest : chars) :
  starts_with (list_ascii_of_string "end}") rest = false ->
  forall c, starts_with (list_ascii_of_string "{end}") (c :: esc x ++ rest) = false.
Proof.
  intros Hr c. change (ascii_eqb "{" c && starts_with (list_ascii_of_string "end}") (esc x ++ rest) = false).
    destruct x as [|c' x]; simpl app.
    + rewrite Hr. apply andb_false_r.
    + change (ascii_eqb "{" c && (ascii_eqb "e" "\" && starts_with (list_ascii_of_string "nd}") (c' :: esc x ++ rest)) = false).
      rewrite andb_false_r. reflexivity.
Qed.

Lemma replace_all_aux_esc (rep : chars) (x rest : chars) (f pos : nat) (whole : chars) :
  starts_with (list_ascii_of_string "end}") rest = false ->
  replace_all_aux (length (esc x) + f) (list_ascii_of_string "{end}") rep (esc x ++ rest) pos whole
  = esc x ++ replace_all_aux f (list_ascii_of_string "{end}") rep rest (pos + length (esc x)) whole.
Proof.
  intros Hr. revert pos. induction x as [|c x IH]; intros pos.
  - rewrite Nat.add_0_r. reflexivity.
  - change (length (esc (c :: x)) + f) with (S (S (length (esc x) + f))).
    change (esc (c :: x) ++ rest) with ("\"%char :: c :: esc x ++ rest).
    rewrite replace_all_aux_cons.
    change (starts_with (list_ascii_of_string "{end}") ("\"%char :: c :: esc x ++ rest))
      with false.
    rewrite replace_all_aux_cons.
    rewrite (starts_with_end_esc x rest Hr c).
    rewrite IH. change (length (esc (c :: x))) with (S (S (length (esc x)))).
    rewrite !Nat.add_succ_r. reflexivity.
Qed.

Lemma regexp_ok_step f c t d a :
  regexp_ok (S f) (c :: t) d a = regexp_step (fun s d a => regexp_ok f s d a) c t d a.
Proof. reflexivity. Qed.

Lemma regexp_step_mono (r1 r2 : chars -> nat -> bool -> bool) c t d a :
  (forall s d a, r1 s d a = true -> r2 s d a = true) ->
  regexp_step r1 c t d a = true -> regexp_step r2 c t d a = true.
Proof.
  intros Hr. unfold regexp_step.
  destruct (ascii_eqb c "\"); [destruct t; auto|].
  destruct (ascii_eqb c "(").
  { destruct t as [|q [|k t']]; auto. destruct (ascii_eqb q "?" && ascii_eqb k ":"); auto. }
  destruct (ascii_eqb c ")"); [destruct d; auto|].
  destruct (ascii_eqb c "["); [destruct (skip_class t); auto|].
  destruct (ascii_eqb c "*" || ascii_eqb c "+" || ascii_eqb c "?").
  { destruct a; simpl; [|auto]. destruct t as [|q t']; [auto|].
    destruct (ascii_eqb q "?"); auto. }
  destruct (ascii_eqb c "|" || ascii_eqb c "^" || ascii_eqb c "$"); auto.
Qed.

Lemma regexp_ok_S (f : nat) : forall s d a, regexp_ok f s d a = true -> regexp_ok (S f) s d a = true.
Proof.
  induction f as [|f IH]; intros s d a H; [discriminate|].
  destruct s as [|c t]; [exact H|].
  rewrite regexp_ok_step in H |- *.
  exact (regexp_step_mono _ _ c t d a IH H).
Qed.

Lemma regexp_ok_mono (f g : nat) s d a : f <= g -> regexp_ok f s d a = true -> regexp_ok g s d a = true.
Proof. induction 1; auto using regexp_ok_S. Qed.

Lemma regexp_ok_esc (f : nat) (x rest : chars) d a :
  regexp_ok (f + length x) (esc x ++ rest) d a =
  regexp_ok f rest d (match x with [] => a | _ => true end).
Proof.
  revert a. induction x as [|c x IH]; intros a.
  - rewrite Nat.add_0_r. reflexivity.
  - simpl length. rewrite Nat.add_succ_r.
    change (esc (c :: x) ++ rest) with ("\"%char :: c :: esc x ++ rest).
    change (regexp_ok (f + length x) (esc x ++ rest) d true = regexp_ok f rest d true).
    rewrite IH. destruct x; reflexivity.
Qed.

Lemma replace_all_aux_caret f rep s pos whole :
  replace_all_aux (S f) (list_ascii_of_string "{end}") rep ("^"%char :: s) pos whole =
  "^"%char :: replace_all_aux f (list_ascii_of_string "{end}") rep s (S pos) whole.
Proof. reflexivity. Qed.

Ltac replace_start :=
  unfold _createRegExp, replace_all; rewrite !addSlash_esc, !list_ascii_of_string_of_list_ascii;
  match goal with
  | |- context [replace_all_aux ?f (list_ascii_of_string "{start}") ?r ?s 0 ?w] =>
      let e := eval simpl in (replace_all_aux f (list_ascii_of_string "{start}") r s 0 w) in
      change (replace_all_aux f (list_ascii_of_string "{start}") r s 0 w) with e
  end;
  rewrite get_substitution_esc.

Ltac replace_end :=
  simpl length; rewrite ?replace_all_aux_caret;
  rewrite length_app, <- Nat.add_succ_r, replace_all_aux_esc by reflexivity;
  match goal with
  | |- context [replace_all_aux ?f (list_ascii_of_string "{end}") ?r ?s ?p ?w] =>
      let e := eval simpl in (replace_all_aux f (list_ascii_of_string "{end}") r s p w) in
      change (replace_all_aux f (list_ascii_of_string "{end}") r s p w) with e
  end;
  rewrite ?get_substitution_esc, ?app_nil_r; reflexivity.

Lemma createRegExp_xTagMatch st en :
  _createRegExp xTagMatch st en =
  string_of_list_ascii (esc (list_ascii_of_string st) ++ list_ascii_of_string ".*?"
                        ++ esc (list_ascii_of_string en)).
Proof. replace_start. replace_end. Qed.

Lemma createRegExp_xIsEndTag st en :
  _createRegExp xIsEndTag st en =
  string_of_list_ascii ("^"%char :: esc (list_ascii_of_string st) ++ list_ascii_of_string "/").
Proof. replace_start. replace_end. Qed.

Lemma createRegExp_xGetTagName st en :
  _createRegExp xGetTagName st en =
  string_of_list_ascii (esc (list_ascii_of_string st) ++ list_ascii_of_string "(?:/|)(.*?)(?:\s|"
                        ++ esc (list_ascii_of_string en) ++ list_ascii_of_string ")").
Proof. replace_start. replace_end. Qed.

Lemma createRegExp_xGetTagAttributesText st en :
  _createRegExp xGetTagAttributesText st en =
  string_of_list_ascii (esc (list_ascii_of_string st) ++ list_ascii_of_string ".*?\s(.*?)"
                        ++ esc (list_ascii_of_string en)).
Proof. replace_start. replace_end. Qed.

Lemma createRegExp_xStartTagContents st en :
  _createRegExp xStartTagContents st en =
  string_of_list_ascii (esc (list_ascii_of_string st) ++ list_ascii_of_string "(.*)"
                        ++ esc (list_ascii_of_string en)).
Proof. replace_start. replace_end. Qed.

Lemma regexp_ok_esc_le (f : nat) (x rest : chars) d a :
  length x <= f ->
  regexp_ok f (esc x ++ rest) d a =
  regexp_ok (f - length x) rest d (match x with [] => a | _ => true end).
Proof.
  intros Hle. replace f with ((f - length x) + length x) at 1 by lia.
  apply regexp_ok_esc.
Qed.

Lemma new_RegExp_ok (L : chars) :
  regexp_ok (S (length L)) L 0 false = true ->
  new_RegExp (string_of_list_ascii L) = Ok (string_of_list_ascii L).
Proof.
  intros H. unfold new_RegExp. rewrite list_ascii_of_string_of_list_ascii, H. reflexivity.
Qed.

Lemma regexp_ok_esc_l (f : nat) (x rest : chars) d a :
  regexp_ok (length x + f) (esc x ++ rest) d a =
  regexp_ok f rest d (match x with [] => a | _ => true end).
Proof. rewrite Nat.add_comm. apply regexp_ok_esc. Qed.

Lemma regexp_ok_esc_nil (f : nat) (x : chars) d a :
  regexp_ok (length x + f) (esc x) d a =
  regexp_ok f [] d (match x with [] => a | _ => true end).
Proof. rewrite <- (app_nil_r (esc x)). apply regexp_ok_esc_l. Qed.

Ltac esc_step := first [rewrite regexp_ok_esc_l | rewrite regexp_ok_esc_nil].

Lemma regexp_xTagMatch (x y : chars) :
  let L := esc x ++ list_ascii_of_string ".*?" ++ esc y in
  regexp_ok (S (length L)) L 0 false = true.
Proof.
  intros L. apply (regexp_ok_mono (length x + (2 + (length y + 1)))).
  { subst L. rewrite !length_app, !length_esc. simpl. lia. }
  subst L. esc_step. cbn. esc_step. reflexivity.
Qed.

Lemma regexp_xIsEndTag (x : chars) :
  let L := "^"%char :: esc x ++ list_ascii_of_string "/" in
  regexp_ok (S (length L)) L 0 false = true.
Proof.
  intros L. apply (regexp_ok_mono (1 + (length x + 2))).
  { subst L. simpl length. rewrite !length_app, !length_esc. simpl. lia. }
  subst L. cbn. esc_step. reflexivity.
Qed.

Lemma regexp_xGetTagName (x y : chars) :
  let L := esc x ++ list_ascii_of_string "(?:/|)(.*?)(?:\s|" ++ esc y ++ list_ascii_of_string ")" in
  regexp_ok (S (length L)) L 0 false = true.
Proof.
  intros L. apply (regexp_ok_mono (length x + (11 + (length y + 2)))).
  { subst L. rewrite !length_app, !length_esc. simpl. lia. }
  subst L. esc_step. cbn. esc_step. reflexivity.
Qed.

Lemma regexp_xGetTagAttributesText (x y : chars) :
  let L := esc x ++ list_ascii_of_string ".*?\s(.*?)" ++ esc y in
  regexp_ok (S (length L)) L 0 false = true.
Proof.
  intros L. apply (regexp_ok_mono (length x + (7 + (length y + 1)))).
  { subst L. rewrite !length_app, !length_esc. simpl. lia. }
  subst L. esc_step. cbn. esc_step. reflexivity.
Qed.

Lemma regexp_xStartTagContents (x y : chars) :
  let L := esc x ++ list_ascii_of_string "(.*)" ++ esc y in
  regexp_ok (S (length L)) L 0 false = true.
Proof.
  intros L. apply (regexp_ok_mono (length x + (4 + (length y + 1)))).
  { subst L. rewrite !length_app, !length_esc. simpl. lia. }
  subst L. esc_step. cbn. esc_step. reflexivity.
Qed.

(** C9 (amended): the constructor never validates its delimiters.  For
    every start and end delimiter, the empty string included, the five
    [new RegExp] calls of [_createRegExpsObj] succeed, so construction
    returns a parser whose finder holds exactly the given delimiters and
    whose registry is empty; no configuration error is raised. *)
Theorem ShortcodeParser_accepts_any_delimiters (st en : string) :
  ShortcodeParser (mkOptions (Some st) (Some en)) =
  Ok (mkParser (mkFinder (list_ascii_of_string st) (list_ascii_of_string en)) []).
Proof.
  unfold ShortcodeParser, _createRegExpsObj. simpl default.
  rewrite createRegExp_xTagMatch, createRegExp_xIsEndTag, createRegExp_xGetTagName,
    createRegExp_xGetTagAttributesText, createRegExp_xStartTagContents.
  rewrite (new_RegExp_ok _ (regexp_xTagMatch _ _)), (new_RegExp_ok _ (regexp_xIsEndTag _)),
    (new_RegExp_ok _ (regexp_xGetTagName _ _)), (new_RegExp_ok _ (regexp_xGetTagAttributesText _ _)),
    (new_RegExp_ok _ (regexp_xStartTagContents _ _)).
  reflexivity.
Qed.

(** C9 (counterexample): with both delimiters empty, construction
    succeeds instead of raising a configuration error. *)
Lemma ShortcodeParser_empty_delimiters_accepted :
  ShortcodeParser (mkOptions (Some "") (Some "")) = Ok (mkParser (mkFinder [] []) []).
Proof. vm_compute. reflexivity. Qed.

(* ------------------------------------------------------------------ *)
(** ** The attribute parser on well-formed tokens *)









Lemma try_down_none (f : nat -> chars -> option (nat * caps)) (l : nat) (s : chars) :
  (forall j, 1 <= j <= l -> f j s = None) -> try_down f l s = None.
Proof.
  induction l as [|l IH]; intros H; simpl; [done|].
  rewrite H by lia. apply IH. intros j Hj. apply H. lia.
Qed.






Lemma nat_digits_digits (fuel n : nat) : Forall (fun c => is_digit c = true) (nat_digits fuel n).
Proof.
  revert n. induction fuel as [|f IH]; intros n; simpl; [constructor|].
  apply Forall_app. split.
  - destruct (n <? 10); [constructor | apply IH].
  - constructor; [|constructor]. unfold digit_char, is_digit.
    pose proof (Nat.mod_upper_bound n 10) as Hb.
    rewrite nat_ascii_embedding by lia.
    apply andb_true_iff. split; apply Nat.leb_le; lia.
Qed.


Lemma index_not_proto (n : nat) : String.eqb (index_key n) "__proto__" = false.
Proof.
  apply String.eqb_neq. intros Heq. unfold index_key in Heq.
  apply (f_equal list_ascii_of_string) in Heq.
  rewrite list_ascii_of_string_of_list_ascii in Heq.
  pose proof (nat_digits_digits (S n) n) as Hd. rewrite Heq in Hd.
  inversion Hd as [|? ? Hc _]. discriminate.
Qed.




















Lemma attr_here_nil : attr_here [] = None.
Proof. reflexivity. Qed.








Lemma attr_loop_st_snd (fuel : nat) (s : chars) (li count : nat) (a : attrs) :
  attr_loop fuel s li count a = snd (attr_loop_st fuel s li count a).
Proof.
  revert li count a. induction fuel as [|f IH]; intros li count a; simpl; [reflexivity|].
  destruct (exec_global attr_here s li) as [[p [n r]]|]; [|reflexivity].
  destruct (attr_body r count a); simpl; [apply IH | reflexivity].
Qed.

Lemma getAttribute_st_snd (fd : finder) (tagtext : chars) :
  _getAttribute fd tagtext = snd (_getAttribute_st 0 fd tagtext).
Proof.
  unfold _getAttribute, _getAttribute_st, attributes_of_text, attributes_of_text_st.
  destruct (exec_first (attr_text_here fd) tagtext); [apply attr_loop_st_snd | reflexivity].
Qed.


(** A block of the tests: [ id=45  big<TAB>say="it's" evenmore='"hello" WORLD'],
    with a leading space, a double space and a tab. *)
Definition sample_lead : chars := [" "%char].

Definition sample_items : list (token * chars) :=
  [(TKey (list_ascii_of_string "id") (list_ascii_of_string "45"), [" "%char; " "%char]);
   (TBare (list_ascii_of_string "big"), [ascii_of_nat 9]);
   (TKeyQ (list_ascii_of_string "say") (ascii_of_nat 34) (list_ascii_of_string "it's"), [" "%char]);
   (TKeyQ (list_ascii_of_string "evenmore") (ascii_of_nat 39)
      (ascii_of_nat 34 :: list_ascii_of_string "hello" ++
       ascii_of_nat 34 :: list_ascii_of_string " WORLD"), [])].


(** The sample block read in full: four positions, three keys. *)
Lemma sample_block_attributes :
  exists a, attributes_of_text_st 0 (render_block sample_lead sample_items) = (0, Ok a) /\
    a !! "1" = Some (AObj {["id" := Some "45"]}) /\ a !! "id" = Some (AStr "45") /\
    a !! "2" = Some (AStr "big") /\ a !! "say" = Some (AStr "it's") /\
    a !! "evenmore" = Some (AStr (string_of_list_ascii
                        (ascii_of_nat 34 :: list_ascii_of_string "hello" ++
                         ascii_of_nat 34 :: list_ascii_of_string " WORLD"))) /\
    a !! "5" = None.
Proof. eexists. split; [vm_compute; reflexivity|]. vm_compute. repeat split. Qed.


(** Why [=] is barred from quoted values: in [k='a="b"'] the quoted value
    [a="b"] holds [=] followed by a quote, and the parser reads the key
    [k='a] with the value [b]. *)
Lemma attributes_of_text_eq_in_quoted_value :
  attributes_of_text (list_ascii_of_string "k='a=" ++ ascii_of_nat 34 :: list_ascii_of_string "b"
                      ++ ascii_of_nat 34 :: list_ascii_of_string "'") =
  Ok {["k='a" := AStr "b"; "1" := AObj {["k='a" := Some "b"]}]}.
Proof. vm_compute. reflexivity. Qed.

(** The shared [lastIndex] matters: [_getAttribute] on [[[X 1=a]]] throws
    (the index key of C3) and leaves [lastIndex] at 3, after the match
    [1=a] in the attribute text [1=a];
    the next call, on [[[CONTENT id=45]]], starts there, inside [id=45],
    and gives position 1 the text [45] and no [id] at all. *)
Lemma getAttribute_stale_lastIndex :
  _getAttribute_st 0 default_finder (list_ascii_of_string "[[X 1=a]]") =
    (3, Throw (ETypeError "Cannot create property on string")) /\
  _getAttribute_st 3 default_finder (list_ascii_of_string "[[CONTENT id=45]]") =
    (0, Ok {["1" := AStr "45"]}).
Proof. split; vm_compute; reflexivity. Qed.

(** The scenario of the specification: from [lastIndex] 0, the attribute
    block of [[[CONTENT id=45]]] gives [id] the value [45] and position 1
    the object [{id: "45"}], and [lastIndex] is 0 again. *)
Lemma getAttribute_content_id :
  exists a, _getAttribute_st 0 default_finder (list_ascii_of_string "[[CONTENT id=45]]") = (0, Ok a) /\
    a !! "id" = Some (AStr "45") /\ a !! "1" = Some (AObj {["id" := Some "45"]}).
Proof. eexists. split; [vm_compute; reflexivity|]. vm_compute. split; reflexivity. Qed.

(* ------------------------------------------------------------------ *)
(** ** Further properties: the registry *)


Lemma map_get_cons (k k' : jsval) (v : nat) (reg : registry) :
  map_get ((k', v) :: reg) k = if bool_decide (k' = k) then Some v else map_get reg k.
Proof. unfold map_get. simpl. case_bool_decide; reflexivity. Qed.

Lemma map_has_cons (k k' : jsval) (v : nat) (reg : registry) :
  map_has ((k', v) :: reg) k = bool_decide (k' = k) || map_has reg k.
Proof. reflexivity. Qed.

Lemma map_get_app (reg reg' : registry) (k : jsval) :
  map_get (reg ++ reg') k = match map_get reg k with Some x => Some x | None => map_get reg' k end.
Proof.
  induction reg as [|[k' v] reg IH]; simpl; [done|].
  rewrite !map_get_cons. case_bool_decide; [done | apply IH].
Qed.

Lemma map_get_set_eq (reg : registry) (k : jsval) (v : nat) :
  map_get (map_set reg k v) k = Some v.
Proof.
  unfold map_set. destruct (map_has reg k) eqn:Hh.
  - induction reg as [|[k' w] reg IH]; [discriminate|].
    rewrite map_has_cons in Hh. simpl map. case_bool_decide as Hk.
    + rewrite map_get_cons, bool_decide_true by done. reflexivity.
    + rewrite map_get_cons, bool_decide_false by done. simpl in Hh.
      apply IH, Hh.
  - rewrite map_get_app. rewrite map_has_get in Hh.
    destruct (map_get reg k); [discriminate|]. rewrite map_get_cons, bool_decide_true; done.
Qed.

Lemma map_get_set_ne (reg : registry) (k n : jsval) (v : nat) :
  k <> n -> map_get (map_set reg k v) n = map_get reg n.
Proof.
  intros Hne. unfold map_set. destruct (map_has reg k).
  - induction reg as [|[k' w] reg IH]; [done|].
    simpl map. simpl fst. case_bool_decide as Hk.
    + subst k'. rewrite !map_get_cons, !bool_decide_false by done. apply IH.
    + rewrite !map_get_cons. case_bool_decide; [done | apply IH].
  - rewrite map_get_app. destruct (map_get reg n); [done|].
    rewrite map_get_cons, bool_decide_false by done. reflexivity.
Qed.

Lemma map_keys_set (reg : registry) (k : jsval) (v : nat) :
  map fst (map_set reg k v) = if map_has reg k then map fst reg else map fst reg ++ [k].
Proof.
  unfold map_set. destruct (map_has reg k); [|rewrite map_app; reflexivity].
  rewrite map_map. apply map_ext. intros [k' w]. simpl. case_bool_decide; [subst; done | done].
Qed.

Lemma map_get_delete_eq (reg : registry) (k : jsval) : map_get (map_delete reg k) k = None.
Proof.
  induction reg as [|[k' v] reg IH]; simpl; [done|].
  case_bool_decide; simpl; [apply IH|].
  rewrite map_get_cons, bool_decide_false by done. apply IH.
Qed.

Lemma map_get_delete_ne (reg : registry) (k n : jsval) :
  k <> n -> map_get (map_delete reg k) n = map_get reg n.
Proof.
  intros Hne. induction reg as [|[k' v] reg IH]; simpl; [done|].
  case_bool_decide as Hk; simpl.
  - subst k'. rewrite map_get_cons, bool_decide_false by done. apply IH.
  - rewrite !map_get_cons. case_bool_decide; [done | apply IH].
Qed.

Lemma get_map_get (p : parser) (name : jsval) :
  get p name = match map_get (p_tags p) name with Some h => Ok h | None => Throw (ENotExist name) end.
Proof. unfold get, has. rewrite map_has_get. destruct (map_get _ _); reflexivity. Qed.

(** X1: [add] of a new name with a function handler appends the pair at the
    end of the registry (insertion order) and returns the handler. *)
Theorem add_fresh_name_appends (p : parser) (name : jsval) (h : nat) (flag : jsval)
    (Hnew : has p name = false) (Href : is_reference name = true) :
  add p name (JFunc h) flag = Ok (mkParser (p_finder p) (p_tags p ++ [(name, h)]), h).
Proof.
  unfold add. rewrite Hnew, Href. simpl.
  unfold map_set. unfold has in Hnew. rewrite Hnew.
  rewrite get_map_get. simpl. rewrite map_get_app.
  rewrite map_has_get in Hnew. destruct (map_get (p_tags p) name); [discriminate|].
  rewrite map_get_cons, bool_decide_true by done. reflexivity.
Qed.

Lemma add_fresh_name_appends_witness :
  has test_parser (JPrim (PStr "B")) = false /\ is_reference (JPrim (PStr "B")) = true /\
  add test_parser (JPrim (PStr "B")) (JFunc 2) (JPrim PUndefined) =
  Ok (mkParser default_finder [(JPrim (PStr "TEST"), 1); (JPrim (PStr "B"), 2)], 2).
Proof.
  split; [reflexivity|]. split; [reflexivity|].
  apply (add_fresh_name_appends test_parser (JPrim (PStr "B")) 2 (JPrim PUndefined));
    reflexivity.
Defined.

(** X2: [add] of a registered name with [throwOnAlreadySet] false replaces
    the handler in place: the keys keep their order, [get] returns the new
    handler, and every other name is unaffected. *)
Theorem add_overwrite_in_place (p : parser) (name : jsval) (h : nat) (flag : jsval)
    (Hhas : has p name = true) (Hflag : flag_value flag = false)
    (Href : is_reference name = true) :
  exists p', add p name (JFunc h) flag = Ok (p', h) /\
    map fst (p_tags p') = map fst (p_tags p) /\ get p' name = Ok h /\
    forall n, n <> name -> get p' n = get p n.
Proof.
  exists (mkParser (p_finder p) (map_set (p_tags p) name h)).
  unfold add. rewrite Hhas, Hflag, Href. simpl.
  rewrite !get_map_get. simpl. rewrite map_get_set_eq.
  split; [reflexivity|]. split; [|split; [reflexivity|]].
  - rewrite map_keys_set. unfold has in Hhas. rewrite Hhas. reflexivity.
  - intros n Hn. rewrite !get_map_get. simpl. rewrite map_get_set_ne by congruence. reflexivity.
Qed.

Lemma add_overwrite_in_place_witness :
  has test_parser (JPrim (PStr "TEST")) = true /\ flag_value (JPrim (PBool false)) = false /\
  is_reference (JPrim (PStr "TEST")) = true /\
  exists p', add test_parser (JPrim (PStr "TEST")) (JFunc 7) (JPrim (PBool false)) = Ok (p', 7) /\
    map fst (p_tags p') = map fst (p_tags test_parser) /\ get p' (JPrim (PStr "TEST")) = Ok 7 /\
    forall n, n <> JPrim (PStr "TEST") -> get p' n = get test_parser n.
Proof.
  split; [reflexivity|]. split; [reflexivity|]. split; [reflexivity|].
  apply (add_overwrite_in_place test_parser (JPrim (PStr "TEST")) 7 (JPrim (PBool false)));
    reflexivity.
Defined.

(** X4: A successful [delete] returns true and removes exactly the given
    name: [has] is false and [get] throws the RangeError for it, and [get]
    of every other name is unchanged. *)
Theorem delete_removes_only_name (p : parser) (name : jsval) (p' : parser) (b : bool)
    (H : delete p name = Ok (p', b)) :
  b = true /\ has p' name = false /\ get p' name = Throw (ENotExist name) /\
  forall n, n <> name -> get p' n = get p n.
Proof.
  unfold delete in H. destruct (has p name); [|discriminate].
  inversion H; subst. split; [reflexivity|].
  assert (Hg : get (mkParser (p_finder p) (map_delete (p_tags p) name)) name = Throw (ENotExist name))
    by (rewrite get_map_get; simpl; rewrite map_get_delete_eq; reflexivity).
  split; [|split; [exact Hg|]].
  - unfold has. simpl. rewrite map_has_get, map_get_delete_eq. reflexivity.
  - intros n Hn. rewrite !get_map_get. simpl. rewrite map_get_delete_ne by congruence. reflexivity.
Qed.

Lemma delete_removes_only_name_witness :
  delete test_parser (JPrim (PStr "TEST")) = Ok (mkParser default_finder [], true) /\
  true = true /\ has (mkParser default_finder []) (JPrim (PStr "TEST")) = false /\
  get (mkParser default_finder []) (JPrim (PStr "TEST")) = Throw (ENotExist (JPrim (PStr "TEST"))) /\
  forall n, n <> JPrim (PStr "TEST") -> get (mkParser default_finder []) n = get test_parser n.
Proof.
  assert (H : delete test_parser (JPrim (PStr "TEST")) = Ok (mkParser default_finder [], true))
    by reflexivity.
  split; [exact H|]. apply (delete_removes_only_name _ _ _ _ H).
Defined.

(* ------------------------------------------------------------------ *)
(** ** Further properties: the tag resolver *)

Lemma no_overlap_back_complete (tags : list tag) (tg : tag) (nn : nat) :
  (forall m y, m <= nn -> tags !! m = Some y -> end_ y <= start tg) ->
  no_overlap_back tags tg nn = true.
Proof.
  induction nn as [|nn IH]; intros H; simpl.
  - destruct (tags !! 0) as [t|] eqn:Ht; [|reflexivity].
    rewrite (proj2 (Nat.ltb_ge _ _) (H 0 t (le_n 0) Ht)). reflexivity.
  - rewrite IH by (intros m y Hm Hy; apply (H m y); [lia | exact Hy]).
    destruct (tags !! S nn) as [t|] eqn:Ht; [|reflexivity].
    rewrite (proj2 (Nat.ltb_ge _ _) (H (S nn) t (le_n _) Ht)). reflexivity.
Qed.

Lemma filteri_from_all {A} (f : nat -> A -> bool) (i : nat) (l : list A) :
  (forall k x, l !! k = Some x -> f (i + k) x = true) -> filteri_from f i l = l.
Proof.
  revert i. induction l as [|x l IH]; intros i H; simpl; [done|].
  rewrite <- (Nat.add_0_r i) at 1. rewrite (H 0 x) by reflexivity. f_equal.
  apply IH. intros k y Hk. replace (S i + k) with (i + S k) by lia. apply (H (S k)), Hk.
Qed.

Lemma filterOverlappingTags_keep_all (tags : list tag) :
  StronglySorted disjoint_before tags -> _filterOverlappingTags tags = tags.
Proof.
  intros Hs. unfold _filterOverlappingTags. apply filteri_from_all.
  intros k x Hk. simpl. destruct (0 <? k) eqn:Hk0; [|reflexivity].
  apply Nat.ltb_lt in Hk0. apply no_overlap_back_complete.
  intros m y Hm Hy. apply (StronglySorted_lookup _ _ m k y x Hs); [lia | exact Hy | exact Hk].
Qed.

(** X5: [_filterOverlappingTags] returns its input unchanged exactly when
    every record ends at or before the start of every later record. *)
Theorem filterOverlappingTags_fixed_iff_disjoint (tags : list tag) :
  _filterOverlappingTags tags = tags <-> StronglySorted disjoint_before tags.
Proof.
  split.
  - intros H. rewrite <- H. apply filterOverlappingTags_disjoint.
  - apply filterOverlappingTags_keep_all.
Qed.

(** X6: [_filterOverlappingTags] is idempotent. *)
Theorem filterOverlappingTags_idempotent (tags : list tag) :
  _filterOverlappingTags (_filterOverlappingTags tags) = _filterOverlappingTags tags.
Proof. apply filterOverlappingTags_keep_all, filterOverlappingTags_disjoint. Qed.

(** The fields of a record that the end-tag folding never writes. *)
Definition fixed_fields (t : tag) : string * bool * nat * attrs * string :=
  (tagName t, endTag t, start t, attributes t, tagContents t).

Lemma map_insert_same {A B} (f : A -> B) (l : list A) (i : nat) (x y : A) :
  l !! i = Some y -> f x = f y -> map f (<[i := x]> l) = map f l.
Proof.
  revert i. induction l as [|z l IH]; intros i Hi Hf; [discriminate|].
  destruct i as [|i]; simpl in *.
  - inversion Hi; subst. rewrite Hf. reflexivity.
  - f_equal. apply IH; assumption.
Qed.

Lemma fold_back_fixed (txt : string) (result : tag) (nn : nat) (tags : list tag) :
  map fixed_fields (fold_back txt result nn tags) = map fixed_fields tags.
Proof.
  revert tags. induction nn as [|nn IH]; intros tags; simpl;
    [|rewrite IH];
    (destruct (tags !! _) as [t|] eqn:Ht; [|reflexivity];
     destruct (_ && _); [|reflexivity];
     apply (map_insert_same _ _ _ _ t Ht); reflexivity).
Qed.

Lemma fold_steps_fixed (txt : string) (ns : list nat) (tags : list tag) :
  map fixed_fields (fold_left (fix_step txt) ns tags) = map fixed_fields tags.
Proof.
  revert tags. induction ns as [|n ns IH]; intros tags; simpl; [done|].
  rewrite IH. unfold fix_step.
  destruct (tags !! n) as [r|]; [|done]. destruct (endTag r); [|done].
  apply fold_back_fixed.
Qed.

Lemma filter_start_fixed (l1 l2 : list tag) :
  map fixed_fields l1 = map fixed_fields l2 ->
  map fixed_fields (filter (fun t => negb (endTag t)) l1) =
  map fixed_fields (filter (fun t => negb (endTag t)) l2).
Proof.
  revert l2. induction l1 as [|x l1 IH]; intros [|y l2] H; try discriminate; [done|].
  assert (Hxy : fixed_fields x = fixed_fields y)
    by (apply (f_equal (@head _)) in H; cbn [head map] in H; congruence).
  assert (Hl : map fixed_fields l1 = map fixed_fields l2)
    by (apply (f_equal (@tail _)) in H; exact H).
  assert (He : endTag x = endTag y) by (unfold fixed_fields in Hxy; congruence).
  rewrite !filter_cons, He.
  destruct (decide (negb (endTag y))); simpl; [f_equal; [exact Hxy|]|]; apply IH, Hl.
Qed.

(** X8: [_fixEndTags] returns exactly the non-end records of its input, in
    order, with their tag name, end-tag flag, start, attributes and head
    text untouched; the folding only writes [content], [fullMatch], [end]
    and [selfClosing]. *)
Theorem fixEndTags_keeps_start_records (txt : string) (tags : list tag) :
  map fixed_fields (_fixEndTags txt tags) =
  map fixed_fields (filter (fun t => negb (endTag t)) tags).
Proof. unfold _fixEndTags. apply filter_start_fixed, fold_steps_fixed. Qed.

(** X9: Without end-tag records, [_fixEndTags] returns its input unchanged. *)
Theorem fixEndTags_no_end_tags_id (txt : string) (tags : list tag)
    (H : Forall (fun t => endTag t = false) tags) :
  _fixEndTags txt tags = tags.
Proof.
  unfold _fixEndTags.
  assert (Hf : forall ns, fold_left (fix_step txt) ns tags = tags).
  { intros ns. induction ns as [|n ns IH]; simpl; [done|].
    unfold fix_step at 2. destruct (tags !! n) as [r|] eqn:Hr; [|exact IH].
    rewrite Forall_forall in H. rewrite (H r) by (eapply list_elem_of_lookup_2; eauto).
    exact IH. }
  rewrite Hf. clear Hf. induction H as [|x l Hx _ IH]; [done|].
  rewrite filter_cons_True by (rewrite Hx; exact I). f_equal. exact IH.
Qed.

Lemma fixEndTags_no_end_tags_id_witness :
  Forall (fun t => endTag t = false)
    (match _parse "[[A]]x[[B]]" default_finder with Ok ts => ts | Throw _ => [] end) /\
  _fixEndTags "[[A]]x[[B]]"
    (match _parse "[[A]]x[[B]]" default_finder with Ok ts => ts | Throw _ => [] end)
  = (match _parse "[[A]]x[[B]]" default_finder with Ok ts => ts | Throw _ => [] end).
Proof.
  assert (H : Forall (fun t => endTag t = false)
    (match _parse "[[A]]x[[B]]" default_finder with Ok ts => ts | Throw _ => [] end))
    by (vm_compute; repeat constructor).
  split; [exact H|]. apply fixEndTags_no_end_tags_id, H.
Defined.

(* ------------------------------------------------------------------ *)
(** ** Further properties: [String.prototype.replace] in [_runHandlers] *)

Lemma search_from_sound {A} (here : chars -> option A) (s : chars) (p0 q : nat) (a : A) :
  search_from here s p0 = Some (q, a) ->
  p0 <= q /\ q - p0 <= length s /\ here (drop (q - p0) s) = Some a /\
  forall i, i < q - p0 -> here (drop i s) = None.
Proof.
  revert p0. induction s as [|c t IH]; intros p0 H; simpl in H.
  - destruct (here []) eqn:E; inversion H; subst.
    rewrite Nat.sub_diag. repeat split; auto; intros; lia.
  - destruct (here (c :: t)) eqn:E.
    + inversion H; subst. rewrite Nat.sub_diag. repeat split; auto; simpl; [lia|]. intros; lia.
    + destruct (IH (S p0) H) as (Hle & Hlen & Hh & Hb).
      replace (q - p0) with (S (q - S p0)) by lia.
      repeat split; [lia | simpl; lia | exact Hh |].
      intros [|i] Hi; [exact E|]. simpl. apply Hb. lia.
Qed.

Lemma search_from_none {A} (here : chars -> option A) (s : chars) (p0 : nat) :
  (forall i, i <= length s -> here (drop i s) = None) -> search_from here s p0 = None.
Proof.
  revert p0. induction s as [|c t IH]; intros p0 H; simpl.
  - pose proof (H 0 (le_n 0)) as H0. simpl in H0. rewrite H0. reflexivity.
  - pose proof (H 0 ltac:(lia)) as H0. simpl in H0. rewrite H0.
    apply IH. intros i Hi. apply (H (S i)). simpl. lia.
Qed.

Lemma starts_with_take (p s : chars) :
  starts_with p s = true -> length p <= length s /\ take (length p) s = p.
Proof.
  revert s. induction p as [|a p IH]; intros s H; [simpl; split; [lia | reflexivity]|].
  destruct s as [|b s]; [discriminate|]. simpl in H |- *.
  apply andb_true_iff in H as [Hab Hs]. unfold ascii_eqb in Hab. apply Ascii.eqb_eq in Hab.
  subst b. destruct (IH s Hs) as [Hl Ht]. rewrite Ht. split; [lia | reflexivity].
Qed.

Lemma take_drop_split (s p : chars) (pos : nat) :
  pos <= length s -> take (length p) (drop pos s) = p -> length p <= length (drop pos s) ->
  take pos s ++ p ++ drop (pos + length p) s = s.
Proof.
  intros Hpos Ht Hl.
  rewrite <- Ht at 1. rewrite <- drop_drop.
  rewrite (take_drop (length p) (drop pos s)). apply take_drop.
Qed.

(** X12: [txt.replace(pattern, "$&")] returns [txt]: the replacement [$&]
    inserts the matched text back. *)
Theorem js_replace_dollar_amp_identity (txt pat : string) :
  js_replace txt pat (PStr "$&") = txt.
Proof.
  unfold js_replace, index_of.
  destruct (search_from _ _ 0) as [[pos []]|] eqn:E; simpl; [|reflexivity].
  destruct (search_from_sound _ _ _ _ _ E) as (_ & Hlen & Hh & _).
  rewrite Nat.sub_0_r in Hlen, Hh.
  destruct (starts_with _ (drop pos _)) eqn:Hs; [|discriminate].
  destruct (starts_with_take _ _ Hs) as [Hl Ht].
  cbn [get_substitution list_ascii_of_string ascii_eqb]. simpl. rewrite app_nil_r.
  rewrite take_drop_split by assumption.
  apply string_of_list_ascii_of_string.
Qed.

(* ------------------------------------------------------------------ *)
(** ** Further properties: the tag extractor *)



Lemma exec_global_sound {A} (here : chars -> option A) (s : chars) (li p : nat) (a : A) :
  exec_global here s li = Some (p, a) ->
  li <= p /\ p <= length s /\ here (drop p s) = Some a.
Proof.
  unfold exec_global. destruct (li <=? length s) eqn:Hl; [|discriminate].
  apply Nat.leb_le in Hl. intros H.
  destruct (search_from_sound _ _ _ _ _ H) as (Hle & Hlen & Hh & _).
  rewrite drop_drop in Hh. replace (li + (p - li)) with p in Hh by lia.
  rewrite length_drop in Hlen. repeat split; [lia | lia | exact Hh].
Qed.






(* ------------------------------------------------------------------ *)
(** ** Further properties: [parse] when no handler applies *)

Lemma M_bind_ok {A B} (m : M A) (k : A -> M B) (log log' : list call) (a : A) :
  m log = (log', Ok a) -> (m ≫= k) log = k a log'.
Proof. intros H. unfold mbind, M_bind. rewrite H. reflexivity. Qed.

Section Unhandled.
Variable rx_test : nat -> string -> bool.
Variable pred_call : nat -> string -> bool.
Variable handler_call : nat -> tag -> list jsval -> hresult.

Definition unhandled (reg : registry) (tg : tag) : Prop :=
  map_has reg (JPrim (PStr (tagName tg))) = false /\
  Forall (fun e => _isSelectorMatch rx_test pred_call (fst e) tg = false) reg.

Lemma scan_selectors_nomatch (entries : registry) tg params (log : list call) :
  Forall (fun e => _isSelectorMatch rx_test pred_call (fst e) tg = false) entries ->
  scan_selectors rx_test pred_call handler_call entries tg params None log = (log, Ok None).
Proof.
  induction 1 as [|[sel h] rest Hx _ IH]; simpl; [reflexivity|].
  simpl in Hx. rewrite Hx. exact IH.
Qed.

Lemma run_tag_unhandled (reg : registry) tg params (log : list call) :
  unhandled reg tg ->
  run_tag rx_test pred_call handler_call reg tg params log = (log, Ok None).
Proof.
  intros [Hh Hs]. unfold run_tag. rewrite Hh. apply scan_selectors_nomatch, Hs.
Qed.

Lemma mapM_run_tag_unhandled (reg : registry) (tags : list tag) params (log : list call) :
  Forall (unhandled reg) tags ->
  mapM (fun tg => run_tag rx_test pred_call handler_call reg tg params) tags log
  = (log, Ok (map (fun _ => None) tags)).
Proof.
  induction 1 as [|tg rest Ht _ IH]; [reflexivity|].
  simpl. rewrite (M_bind_ok _ _ _ _ _ (run_tag_unhandled _ _ _ _ Ht)).
  rewrite (M_bind_ok _ _ _ _ _ IH). reflexivity.
Qed.

Lemma all_settled_nones {A B} (l : list B) :
  all_settled (map (fun _ => @None (pstate A)) l) = Fulfilled (map (fun _ => None) l).
Proof. induction l as [|x l IH]; simpl; [reflexivity|]. rewrite IH. reflexivity. Qed.

Lemma apply_replacements_nones {B} (txt : string) (l : list B) :
  apply_replacements txt (map (fun _ => None) l) = txt.
Proof. unfold apply_replacements. induction l as [|x l IH]; simpl; [reflexivity|]. exact IH. Qed.

Lemma parse_unhandled_core fuel (reg : registry) (fd : finder) (txt : string)
    params (log : list call) (tags : list tag) :
  resolve fd txt = Ok tags -> Forall (unhandled reg) tags ->
  parse rx_test pred_call handler_call fuel reg fd txt params log = (log, Ok (Fulfilled txt)).
Proof.
  intros Hr Hu. destruct fuel; simpl; unfold mbind, M_bind, lift; rewrite Hr;
    unfold _runHandlers, mbind, M_bind; rewrite (mapM_run_tag_unhandled _ _ _ _ Hu);
    unfold mret, M_ret; rewrite all_settled_nones, apply_replacements_nones, String.eqb_refl;
    reflexivity.
Qed.

End Unhandled.


(** X14: When the tags of a text are resolved without error and no tag has
    an exact-name, pattern or predicate handler, [parse] returns the text
    unchanged after one pass, without invoking any handler. *)
Theorem parse_unhandled_fixed_point rx pred hc fuel (reg : registry) (fd : finder)
    (txt : string) params (log : list call) (tags : list tag)
    (Hres : resolve fd txt = Ok tags)
    (Hnone : Forall (unhandled rx pred reg) tags) :
  parse rx pred hc fuel reg fd txt params log = (log, Ok (Fulfilled txt)).
Proof. apply (parse_unhandled_core rx pred hc fuel reg fd txt params log tags Hres Hnone). Qed.

Definition prefix_z (id : nat) (s : string) : bool := String.prefix "Z" s.

Lemma parse_unhandled_fixed_point_witness :
  resolve default_finder "a [[X y=1]] b [[/X]]" = Ok
    (match resolve default_finder "a [[X y=1]] b [[/X]]" with Ok ts => ts | Throw _ => [] end) /\
  length (match resolve default_finder "a [[X y=1]] b [[/X]]" with Ok ts => ts | Throw _ => [] end) = 1 /\
  parse prefix_z no_selector demo_handlers 3 (demo_registry ++ [(JRegExp 0, 1)]) default_finder
    "a [[X y=1]] b [[/X]]" [] [] = ([], Ok (Fulfilled "a [[X y=1]] b [[/X]]")).
Proof.
  assert (Hr : resolve default_finder "a [[X y=1]] b [[/X]]" = Ok
    (match resolve default_finder "a [[X y=1]] b [[/X]]" with Ok ts => ts | Throw _ => [] end))
    by (vm_compute; reflexivity).
  split; [exact Hr|]. split; [vm_compute; reflexivity|].
  apply (parse_unhandled_fixed_point prefix_z no_selector demo_handlers 3
           (demo_registry ++ [(JRegExp 0, 1)]) default_finder "a [[X y=1]] b [[/X]]" [] [] _ Hr).
  vm_compute. repeat constructor.
Defined.



(* ------------------------------------------------------------------ *)
(** ** Further properties: the attribute parser *)

Lemma in_drop_in (c : ascii) (k : nat) (x : chars) : In c (drop k x) -> In c x.
Proof. intros H. rewrite <- (take_drop k x). apply in_or_app. right. exact H. Qed.

Lemma skip_ws_in (c : ascii) (x : chars) : In c (skip_ws x) -> In c x.
Proof.
  induction x as [|d t IH]; simpl; [tauto|].
  destruct (is_js_space d); [intros H; right; apply IH, H | tauto].
Qed.

Lemma eq_after_ws (s : chars) (k : nat) (c : ascii) (r : chars) :
  ~ In "="%char s -> skip_ws (drop k s) = c :: r -> ascii_eqb c "="%char = false.
Proof.
  intros Hs E. destruct (ascii_eqb c "="%char) eqn:Ec; [|reflexivity].
  exfalso. apply Ascii.eqb_eq in Ec. subst c. apply Hs, (in_drop_in _ k), skip_ws_in.
  rewrite E. left. reflexivity.
Qed.

Lemma alt1_at_no_eq (k : nat) (s : chars) : ~ In "="%char s -> alt1_at k s = None.
Proof.
  intros Hs. unfold alt1_at. destruct (skip_ws (drop k s)) as [|c r1] eqn:E; [reflexivity|].
  rewrite (eq_after_ws _ _ _ _ Hs E). reflexivity.
Qed.

Lemma alt2_at_no_eq (k : nat) (s : chars) : ~ In "="%char s -> alt2_at k s = None.
Proof.
  intros Hs. unfold alt2_at. destruct (skip_ws (drop k s)) as [|c r1] eqn:E; [reflexivity|].
  rewrite (eq_after_ws _ _ _ _ Hs E). reflexivity.
Qed.

Lemma alt3_caps (s : chars) (n : nat) (r : caps) :
  alt3 s = Some (n, r) -> r 1 = None /\ r 4 = None.
Proof.
  unfold alt3. destruct (run_len class3 s); [discriminate|].
  destruct (drop (S n0) s) as [|c t].
  - intros H. inversion H; subst. split; reflexivity.
  - destruct (is_js_space c); [|discriminate]. intros H. inversion H; subst. split; reflexivity.
Qed.

Lemma alt4_caps (s : chars) (n : nat) (r : caps) :
  alt4 s = Some (n, r) -> r 1 = None /\ r 4 = None.
Proof.
  unfold alt4. destruct s as [|q t]; [discriminate|].
  destruct (is_quote q); [|discriminate].
  destruct (lazy_quote q t); [|discriminate]. intros H. inversion H; subst. split; reflexivity.
Qed.

Lemma attr_here_no_eq (s : chars) (n : nat) (r : caps) :
  ~ In "="%char s -> attr_here s = Some (n, r) -> r 1 = None /\ r 4 = None.
Proof.
  intros Hs. unfold attr_here.
  rewrite !try_down_none
    by (intros j _; first [apply alt1_at_no_eq | apply alt2_at_no_eq]; exact Hs).
  destruct (alt3 s) as [[n3 r3]|] eqn:E3.
  - intros H. inversion H; subst. apply (alt3_caps s n), E3.
  - apply alt4_caps.
Qed.

Lemma js_or_truthy (a b : option chars) :
  cap_truthy a || cap_truthy b = true -> exists x, js_or a b = Some x.
Proof.
  unfold js_or. destruct a as [[|c a]|], b as [[|d b]|]; simpl; intros H;
    try discriminate; eexists; reflexivity.
Qed.

Definition positional_strings (a : attrs) : Prop :=
  forall k v, a !! k = Some v -> exists s n, 1 <= n /\ k = index_key n /\ v = AStr s.

Lemma attr_loop_no_eq (fuel : nat) (s : chars) :
  ~ In "="%char s ->
  forall li count a, 1 <= count -> positional_strings a ->
  exists a', attr_loop fuel s li count a = Ok a' /\ positional_strings a'.
Proof.
  intros Hs. induction fuel as [|f IH]; intros li count a Hc Ha; simpl; [eauto|].
  destruct (exec_global attr_here s li) as [[p [n r]]|] eqn:E; [|eauto].
  destruct (exec_global_sound _ _ _ _ _ E) as (_ & _ & Hh).
  destruct (attr_here_no_eq _ _ _ (fun Hin => Hs (in_drop_in _ _ _ Hin)) Hh) as [H1 H4].
  unfold attr_body. rewrite H1, H4. simpl. rewrite andb_false_r. simpl.
  destruct (cap_truthy (r 6) || cap_truthy (r 8)) eqn:Ht.
  - destruct (js_or_truthy _ _ Ht) as [x Hx].
    unfold mbind, throws_bind. apply IH; [lia|].
    unfold js_set_prim. rewrite index_not_proto, Hx. simpl.
    intros k v Hk. apply lookup_insert_Some in Hk as [[<- <-]|[_ Hk]].
    + exists (string_of_list_ascii x), count. auto.
    + apply Ha, Hk.
  - unfold mbind, throws_bind. apply IH; [lia | exact Ha].
Qed.

Lemma lazy_cap_in (en x y : chars) (c : ascii) : lazy_cap en x = Some y -> In c y -> In c x.
Proof.
  revert y. induction x as [|d t IH]; intros y H; simpl in H.
  - destruct (starts_with en []); inversion H; subst; simpl; tauto.
  - destruct (starts_with en (d :: t)).
    + inversion H; subst. simpl. tauto.
    + destruct (is_line_terminator d); [discriminate|].
      destruct (lazy_cap en t) as [y'|] eqn:E; [|discriminate]. simpl in H. inversion H; subst.
      intros [->|Hin]; [left; reflexivity | right; apply (IH y' eq_refl Hin)].
Qed.

Lemma attr_text_lazy_in (en x y : chars) (c : ascii) :
  attr_text_lazy en x = Some y -> In c y -> In c x.
Proof.
  revert y. induction x as [|d t IH]; intros y H; simpl in H; [discriminate|].
  destruct (is_js_space d) eqn:Hd.
  - destruct (lazy_cap en t) as [y'|] eqn:E.
    + inversion H; subst. intros Hin. right. apply (lazy_cap_in _ _ _ _ E Hin).
    + destruct (is_line_terminator d); [discriminate|]. intros Hin. right. apply (IH y H Hin).
  - destruct (is_line_terminator d); [discriminate|]. intros Hin. right. apply (IH y H Hin).
Qed.

Lemma exec_attr_text_in (fd : finder) (x y : chars) (c : ascii) :
  exec_first (attr_text_here fd) x = Some y -> In c y -> In c x.
Proof.
  unfold exec_first. destruct (search_from (attr_text_here fd) x 0) as [[q y']|] eqn:E;
    [|discriminate].
  simpl. intros H. inversion H; subst. clear H.
  destruct (search_from_sound _ _ _ _ _ E) as (_ & _ & Hh & _).
  unfold attr_text_here in Hh. destruct (starts_with (f_start fd) (drop (q - 0) x)); [|discriminate].
  intros Hin. apply (in_drop_in _ (q - 0)), (in_drop_in _ (length (f_start fd))).
  apply (attr_text_lazy_in _ _ _ _ Hh Hin).
Qed.

Lemma attr_text_lazy_no_space (en x : chars) :
  Forall (fun c => is_js_space c = false) x -> attr_text_lazy en x = None.
Proof.
  induction 1 as [|d t Hd _ IH]; simpl; [reflexivity|].
  rewrite Hd. destruct (is_line_terminator d); [reflexivity | exact IH].
Qed.

(** X16: A tag text without whitespace has no attributes: [_getAttribute]
    returns the empty object. *)
Theorem getAttribute_without_space (fd : finder) (tagtext : chars)
    (Hns : Forall (fun c => is_js_space c = false) tagtext) :
  _getAttribute fd tagtext = Ok ∅.
Proof.
  unfold _getAttribute, exec_first. rewrite search_from_none; [reflexivity|].
  intros i _. unfold attr_text_here. destruct (starts_with _ _); [|reflexivity].
  apply attr_text_lazy_no_space. rewrite drop_drop. apply Forall_drop, Hns.
Qed.

Lemma getAttribute_without_space_witness :
  _getAttribute default_finder (list_ascii_of_string "[[HELLO|a=1|'b']]") = Ok ∅.
Proof. apply getAttribute_without_space. repeat constructor. Defined.

(** X17: A tag text without [=] never makes [_getAttribute] throw, and the
    attributes object then holds only strings at positional keys 1, 2, ... *)
Theorem getAttribute_without_equals (fd : finder) (tagtext : chars)
    (Hne : ~ In "="%char tagtext) :
  exists a, _getAttribute fd tagtext = Ok a /\
    forall k v, a !! k = Some v -> exists s n, 1 <= n /\ k = index_key n /\ v = AStr s.
Proof.
  unfold _getAttribute. destruct (exec_first (attr_text_here fd) tagtext) as [t|] eqn:E.
  - unfold attributes_of_text. apply attr_loop_no_eq; [|lia|].
    + intros Hin. apply Hne, (exec_attr_text_in _ _ _ _ E Hin).
    + intros k v Hk. rewrite lookup_empty in Hk. discriminate.
  - exists ∅. split; [reflexivity|]. intros k v Hk. rewrite lookup_empty in Hk. discriminate.
Qed.

Lemma getAttribute_without_equals_witness :
  ~ In "="%char (list_ascii_of_string "[[Q a 'b c' d]]") /\
  exists a, _getAttribute default_finder (list_ascii_of_string "[[Q a 'b c' d]]") = Ok a /\
    forall k v, a !! k = Some v -> exists s n, 1 <= n /\ k = index_key n /\ v = AStr s.
Proof.
  assert (H : ~ In "="%char (list_ascii_of_string "[[Q a 'b c' d]]")).
  { simpl. intros Hin. repeat (destruct Hin as [Hin|Hin]; [discriminate Hin|]). exact Hin. }
  split; [exact H|]. apply (getAttribute_without_equals default_finder _ H).
Defined.

(* ------------------------------------------------------------------ *)
(** ** Further properties: construction *)

(** X18: The five patterns of [_createRegExpsObj] hold each delimiter with
    every character escaped by a backslash, in place of [{start}] and
    [{end}]; delimiter characters such as [$] or an [{end}] inside the start
    delimiter are inserted literally. *)
Theorem createRegExp_inserts_escaped_delimiters (st en : string) :
  _createRegExp xTagMatch st en =
    string_of_list_ascii (esc (list_ascii_of_string st) ++ list_ascii_of_string ".*?"
                          ++ esc (list_ascii_of_string en)) /\
  _createRegExp xIsEndTag st en =
    string_of_list_ascii ("^"%char :: esc (list_ascii_of_string st) ++ list_ascii_of_string "/") /\
  _createRegExp xGetTagName st en =
    string_of_list_ascii (esc (list_ascii_of_string st) ++ list_ascii_of_string "(?:/|)(.*?)(?:\s|"
                          ++ esc (list_ascii_of_string en) ++ list_ascii_of_string ")") /\
  _createRegExp xGetTagAttributesText st en =
    string_of_list_ascii (esc (list_ascii_of_string st) ++ list_ascii_of_string ".*?\s(.*?)"
                          ++ esc (list_ascii_of_string en)) /\
  _createRegExp xStartTagContents st en =
    string_of_list_ascii (esc (list_ascii_of_string st) ++ list_ascii_of_string "(.*)"
                          ++ esc (list_ascii_of_string en)).
Proof.
  split; [apply createRegExp_xTagMatch|]. split; [apply createRegExp_xIsEndTag|].
  split; [apply createRegExp_xGetTagName|]. split; [apply createRegExp_xGetTagAttributesText|].
  apply createRegExp_xStartTagContents.
Qed.

(* ------------------------------------------------------------------ *)
(** ** The [create] variant of the module and its registry *)

Module Create.

(** The [Map] of [create]: any value is stored as a handler. *)
Abbreviation store := (list (jsval * jsval)).

Inductive error :=
| ErrAlreadyExists (name : jsval)  (* add: Error `Tag '...' already exists` *)
| ErrNotExist (name : jsval).      (* get: Error `Tag '...' does not exist` *)

Definition has (tags : store) (name : jsval) : bool :=
  existsb (fun e => bool_decide (fst e = name)) tags.

Definition map_set (tags : store) (k v : jsval) : store :=
  if has tags k
  then map (fun e => if bool_decide (fst e = k) then (k, v) else e) tags
  else tags ++ [(k, v)].

(** [add(name, handler, throwOnAlreadySet=true)]: no check of the handler. *)
Definition add (tags : store) (name handler throwOnAlreadySet : jsval) : error + store :=
  if has tags name && flag_value throwOnAlreadySet then inl (ErrAlreadyExists name)
  else inr (map_set tags name handler).

(** [_delete(name)]: [tags.delete(name)], with no existence check. *)
Definition _delete (tags : store) (name : jsval) : store * bool :=
  (List.filter (fun e => negb (bool_decide (fst e = name))) tags, has tags name).

Definition get (tags : store) (name : jsval) : error + jsval :=
  if has tags name then
    match List.find (fun e => bool_decide (fst e = name)) tags with
    | Some e => inr (snd e)
    | None => inl (ErrNotExist name)
    end
  else inl (ErrNotExist name).

Lemma get_cons (k v name : jsval) (tags : store) :
  get ((k, v) :: tags) name = if bool_decide (k = name) then inr v else get tags name.
Proof. unfold get. simpl. case_bool_decide; reflexivity. Qed.

Lemma get_app_absent (tags : store) (k v name : jsval) :
  k <> name -> get (tags ++ [(k, v)]) name = get tags name.
Proof.
  intros Hk. induction tags as [|[k' v'] t IH]; simpl.
  - rewrite get_cons, bool_decide_false by assumption. reflexivity.
  - rewrite !get_cons, IH. reflexivity.
Qed.

Lemma get_app_new (tags : store) (k v : jsval) :
  has tags k = false -> get (tags ++ [(k, v)]) k = inr v.
Proof.
  induction tags as [|[k' v'] t IH]; simpl; intros H.
  - rewrite get_cons, bool_decide_true by reflexivity. reflexivity.
  - apply orb_false_iff in H as [H1 H2]. rewrite get_cons, H1, IH by assumption. reflexivity.
Qed.

Lemma get_set_in_place (tags : store) (k v name : jsval) :
  get (map (fun e => if bool_decide (fst e = k) then (k, v) else e) tags) name =
  if bool_decide (k = name) then (if has tags k then inr v else get tags name) else get tags name.
Proof.
  induction tags as [|[k' v'] t IH]; simpl.
  - case_bool_decide; reflexivity.
  - destruct (decide (k' = k)) as [->|Hk'].
    + rewrite !bool_decide_true by reflexivity. simpl. rewrite !get_cons.
      destruct (decide (k = name)) as [->|Hn].
      * rewrite !bool_decide_true by reflexivity. reflexivity.
      * rewrite !bool_decide_false by assumption. rewrite bool_decide_false in IH by assumption.
        exact IH.
    + rewrite !(bool_decide_false (k' = k)) by assumption. simpl. rewrite !get_cons.
      destruct (decide (k = name)) as [->|Hn].
      * rewrite (bool_decide_true (name = name)) in IH by reflexivity.
        rewrite (bool_decide_false (k' = name)) by assumption. rewrite bool_decide_true by reflexivity. exact IH.
      * rewrite bool_decide_false in IH by assumption.
        rewrite !(bool_decide_false (k = name)) by assumption.
        destruct (bool_decide (k' = name)); [reflexivity | exact IH].
Qed.

Lemma get_delete (tags : store) (name n : jsval) :
  get (List.filter (fun e => negb (bool_decide (fst e = name))) tags) n =
  if bool_decide (n = name) then inl (ErrNotExist n) else get tags n.
Proof.
  induction tags as [|[k v] t IH]; simpl.
  - case_bool_decide; reflexivity.
  - destruct (decide (k = name)) as [->|Hk].
    + rewrite bool_decide_true by reflexivity. simpl. rewrite IH, get_cons.
      destruct (decide (n = name)) as [->|Hn].
      * rewrite bool_decide_true by reflexivity. reflexivity.
      * rewrite !bool_decide_false by congruence. reflexivity.
    + rewrite (bool_decide_false (k = name)) by assumption. simpl. rewrite !get_cons, IH.
      destruct (decide (n = name)) as [->|Hn].
      * rewrite (bool_decide_true (name = name)) by reflexivity.
        rewrite (bool_decide_false (k = name)) by assumption. reflexivity.
      * rewrite (bool_decide_false (n = name)) by assumption. reflexivity.
Qed.

Lemma has_delete (tags : store) (name : jsval) :
  has (List.filter (fun e => negb (bool_decide (fst e = name))) tags) name = false.
Proof.
  induction tags as [|[k v] t IH]; simpl; [reflexivity|].
  case_bool_decide; simpl; [exact IH|]. rewrite bool_decide_false by assumption. exact IH.
Qed.

Lemma filter_absent (tags : store) (name : jsval) :
  has tags name = false -> List.filter (fun e => negb (bool_decide (fst e = name))) tags = tags.
Proof.
  induction tags as [|[k v] t IH]; simpl; intros H; [reflexivity|].
  apply orb_false_iff in H as [H1 H2]. rewrite H1. simpl. rewrite IH by assumption. reflexivity.
Qed.

End Create.

(** X19: In the [create] variant, [add] of a new name, or of any name with
    [throwOnAlreadySet] false, stores the given value whatever it is (no
    function check); [get] returns it and other names are unaffected. *)
Theorem create_add_stores_any_handler (tags : Create.store) (name handler flag : jsval)
    (Hok : Create.has tags name = false \/ flag_value flag = false) :
  exists tags', Create.add tags name handler flag = inr tags' /\
    Create.get tags' name = inr handler /\
    forall n, n <> name -> Create.get tags' n = Create.get tags n.
Proof.
  unfold Create.add. assert (Hc : Create.has tags name && flag_value flag = false)
    by (destruct Hok as [-> | ->]; [reflexivity | apply andb_false_r]).
  rewrite Hc. eexists. split; [reflexivity|]. unfold Create.map_set.
  destruct (Create.has tags name) eqn:Hh.
  - rewrite Create.get_set_in_place, bool_decide_true, Hh by reflexivity. split; [reflexivity|].
    intros n Hn. rewrite Create.get_set_in_place, bool_decide_false by congruence. reflexivity.
  - split; [apply Create.get_app_new, Hh|]. intros n Hn. apply Create.get_app_absent. congruence.
Qed.

Lemma create_add_stores_any_handler_witness :
  (Create.has [] (JPrim (PStr "A")) = false \/ flag_value (JPrim PUndefined) = false) /\
  exists tags', Create.add [] (JPrim (PStr "A")) (JPrim (PNum 5)) (JPrim PUndefined) = inr tags' /\
    Create.get tags' (JPrim (PStr "A")) = inr (JPrim (PNum 5)) /\
    forall n, n <> JPrim (PStr "A") -> Create.get tags' n = Create.get [] n.
Proof.
  assert (H : Create.has [] (JPrim (PStr "A")) = false \/ flag_value (JPrim PUndefined) = false)
    by (left; reflexivity).
  split; [exact H|]. apply (create_add_stores_any_handler [] _ _ _ H).
Defined.

(** X20: In the [create] variant, [delete] never throws: it returns whether
    the name was registered, removes only that name, and leaves the registry
    unchanged when the name was absent. *)
Theorem create_delete_never_throws (tags : Create.store) (name : jsval) :
  snd (Create._delete tags name) = Create.has tags name /\
  Create.has (fst (Create._delete tags name)) name = false /\
  Create.get (fst (Create._delete tags name)) name = inl (Create.ErrNotExist name) /\
  (Create.has tags name = false -> fst (Create._delete tags name) = tags) /\
  (forall n, n <> name -> Create.get (fst (Create._delete tags name)) n = Create.get tags n).
Proof.
  unfold Create._delete; simpl. split; [reflexivity|]. split; [apply Create.has_delete|].
  split; [rewrite Create.get_delete, bool_decide_true by reflexivity; reflexivity|].
  split; [apply Create.filter_absent|].
  intros n Hn. rewrite Create.get_delete, bool_decide_false by assumption. reflexivity.
Qed.

(* ------------------------------------------------------------------ *)
(** ** Further properties: the [lastIndex] of [xGetAttributes] *)

Lemma skip_ws_length (x : chars) : length (skip_ws x) <= length x.
Proof. induction x as [|c t IH]; simpl; [lia|]. destruct (is_js_space c); simpl; lia. Qed.

Lemma run_len_length (f : ascii -> bool) (x : chars) : run_len f x <= length x.
Proof. induction x as [|c t IH]; simpl; [lia|]. destruct (f c); simpl; lia. Qed.

Lemma lazy_quote_length (q : ascii) (r v : chars) : lazy_quote q r = Some v -> length v < length r.
Proof.
  revert v. induction r as [|c t IH]; intros v H; simpl in H; [discriminate|].
  destruct (ascii_eqb c q); [injection H as <-; simpl; lia|].
  destruct (is_line_terminator c); [discriminate|].
  destruct (lazy_quote q t) as [v'|] eqn:E; [|discriminate].
  simpl in H. injection H as <-. specialize (IH v' eq_refl). simpl. lia.
Qed.

Lemma try_down_some (f : nat -> chars -> option (nat * caps)) (k : nat) (s : chars) x :
  try_down f k s = Some x -> exists j, f j s = Some x.
Proof.
  induction k as [|k IH]; simpl; [discriminate|].
  destruct (f (S k) s) eqn:E; [intros H; injection H as <-; eauto | exact IH].
Qed.

Lemma alt1_at_bounds (k : nat) (s : chars) (n : nat) (r : caps) :
  alt1_at k s = Some (n, r) -> 1 <= n <= length s.
Proof.
  unfold alt1_at. destruct (skip_ws (drop k s)) as [|c r1] eqn:E1; [discriminate|].
  pose proof (skip_ws_length (drop k s)) as L1. rewrite E1, length_drop in L1. simpl in L1.
  destruct (ascii_eqb c "="%char); [|discriminate].
  destruct (skip_ws r1) as [|q r3] eqn:E2; [discriminate|].
  pose proof (skip_ws_length r1) as L2. rewrite E2 in L2. simpl in L2.
  destruct (is_quote q); [|discriminate].
  destruct (lazy_quote q r3) as [v|] eqn:E3; [|discriminate].
  pose proof (lazy_quote_length _ _ _ E3) as L3.
  intros H. injection H as <- _. rewrite length_drop. lia.
Qed.

Lemma alt2_at_bounds (k : nat) (s : chars) (n : nat) (r : caps) :
  alt2_at k s = Some (n, r) -> 1 <= n <= length s.
Proof.
  unfold alt2_at. destruct (skip_ws (drop k s)) as [|c r1] eqn:E1; [discriminate|].
  pose proof (skip_ws_length (drop k s)) as L1. rewrite E1, length_drop in L1. simpl in L1.
  destruct (ascii_eqb c "="%char); [|discriminate].
  pose proof (skip_ws_length r1) as L2. cbv zeta.
  destruct (run_len is_nonspace (skip_ws r1)) as [|m]; [discriminate|].
  intros H. injection H as <- _. rewrite length_drop. lia.
Qed.

Lemma alt3_bounds (s : chars) (n : nat) (r : caps) : alt3 s = Some (n, r) -> 1 <= n <= length s.
Proof.
  unfold alt3. cbv zeta. destruct (run_len class3 s) as [|m] eqn:E; [discriminate|].
  pose proof (run_len_length class3 s) as L. rewrite E in L.
  destruct (drop (S m) s) as [|c t] eqn:Ed.
  - intros H. injection H as <- _. lia.
  - destruct (is_js_space c); [|discriminate]. intros H. injection H as <- _.
    apply (f_equal length) in Ed. rewrite length_drop in Ed. simpl in Ed. lia.
Qed.

Lemma alt4_bounds (s : chars) (n : nat) (r : caps) : alt4 s = Some (n, r) -> 1 <= n <= length s.
Proof.
  unfold alt4. destruct s as [|q r0]; [discriminate|].
  destruct (is_quote q); [|discriminate].
  destruct (lazy_quote q r0) as [v|] eqn:E; [|discriminate].
  pose proof (lazy_quote_length _ _ _ E) as L. intros H. injection H as <- _. simpl. lia.
Qed.

(** Every match of [xGetAttributes] is non-empty and inside the text. *)
Lemma attr_here_bounds (s : chars) (n : nat) (r : caps) :
  attr_here s = Some (n, r) -> 1 <= n <= length s.
Proof.
  unfold attr_here. cbv zeta.
  destruct (try_down alt1_at (run_len is_nonspace s) s) as [x|] eqn:E1.
  { intros H. injection H as ->. destruct (try_down_some _ _ _ _ E1) as [j Hj].
    exact (alt1_at_bounds j s n r Hj). }
  destruct (try_down alt2_at (run_len is_nonspace s) s) as [x|] eqn:E2.
  { intros H. injection H as ->. destruct (try_down_some _ _ _ _ E2) as [j Hj].
    exact (alt2_at_bounds j s n r Hj). }
  destruct (alt3 s) as [x|] eqn:E3.
  { intros H. injection H as ->. exact (alt3_bounds s n r E3). }
  apply alt4_bounds.
Qed.

Lemma attr_loop_st_ok_reset (fuel : nat) (s : chars) :
  forall li count a li' a', length s - li < fuel ->
  attr_loop_st fuel s li count a = (li', Ok a') -> li' = 0.
Proof.
  induction fuel as [|f IH]; intros li count a li' a' Hf H; [lia|]. simpl in H.
  destruct (exec_global attr_here s li) as [[p [n r]]|] eqn:E; [|injection H as <- _; reflexivity].
  destruct (exec_global_sound _ _ _ _ _ E) as (Hlp & Hp & Hh).
  pose proof (attr_here_bounds _ _ _ Hh) as Hn. rewrite length_drop in Hn.
  destruct (attr_body r count a) as [a1|e]; [|discriminate].
  refine (IH _ _ _ _ _ _ H). lia.
Qed.

(** X21: A call of [_getAttribute] that returns normally leaves the
    [lastIndex] of the shared [xGetAttributes] at 0, whatever it was
    before; only a tag without attribute text leaves it untouched. *)
Theorem getAttribute_st_ok_lastIndex (li : nat) (fd : finder) (tagtext : chars)
    (li' : nat) (a : attrs) :
  _getAttribute_st li fd tagtext = (li', Ok a) ->
  li' = 0 \/ (li' = li /\ exec_first (attr_text_here fd) tagtext = None).
Proof.
  unfold _getAttribute_st. destruct (exec_first (attr_text_here fd) tagtext) as [t|].
  - intros H. left. unfold attributes_of_text_st in H.
    refine (attr_loop_st_ok_reset _ _ _ _ _ _ _ _ H). lia.
  - intros H. injection H as <- _. right. split; reflexivity.
Qed.

Lemma getAttribute_st_ok_lastIndex_witness :
  _getAttribute_st 2 default_finder (list_ascii_of_string "[[CONTENT id=45]]") =
    (0, Ok {["1" := AStr "=45"]}) /\
  (0 = 0 \/ (0 = 2 /\
     exec_first (attr_text_here default_finder) (list_ascii_of_string "[[CONTENT id=45]]") = None)).
Proof.
  assert (H : _getAttribute_st 2 default_finder (list_ascii_of_string "[[CONTENT id=45]]") =
              (0, Ok {["1" := AStr "=45"]})) by (vm_compute; reflexivity).
  split; [exact H|]. exact (getAttribute_st_ok_lastIndex _ _ _ _ _ H).
Defined.
